(** * hidtool: the HID report descriptor parser and the hidraw feature call

    A shallow embedding of [src/hid_report_desc.cpp] (item tokenizer,
    state evaluator, tree builder, Report-ID index, the two renderers) and
    of [device::feature_get] from the hidraw wrapper, with the properties
    the specification states about them.

    Conventions.
    - A [uintN_t] is a [Z] in [0, 2^N); an [intN_t] is a [Z] in
      [-2^(N-1), 2^(N-1)).  Every narrowing conversion of the source is
      written out ([u8], [u16], [u32], [sint]).
    - The cursor pair [(p, end)] of the tokenizer is the list of bytes
      still to be read.
    - A [collection_node*] is the path of child positions from the root:
      the nodes are allocated one by one and never move.  The place of a
      field in the tree is such a path plus the position of the field in
      the node's [fields] vector.
    - A [const report_field*] points into the buffer a [fields] vector
      had when the pointer was taken: it is the node, that buffer and the
      position.  A vector that grows moves to a new buffer and frees the
      old one; a pointer into a freed buffer dangles, and reading through
      it is undefined.
    - An [std::ostringstream] is the string written so far; a function
      that writes to one returns the text it appends.
    - The range loop of the Input/Output/Feature case counts with a
      [uint32_t] and need not end: it runs on [fuel], and a result [None]
      means that the loop has not ended within that many iterations.
    - The operating system is the answer function of the feature ioctl,
      and a log of the calls made. *)

From Stdlib Require Import ZArith Lia Ascii String Strings.Byte DecimalString.
From stdpp Require Import base list gmap strings.

Local Open Scope Z_scope.

(** ** Fixed-width integers *)

Definition u8 (x : Z) : Z := x mod 2 ^ 8.
Definition u16 (x : Z) : Z := x mod 2 ^ 16.
Definition u32 (x : Z) : Z := x mod 2 ^ 32.

(** [(intW_t)v] for an unsigned [v]: the low [w] bits read as two's
    complement. *)
Definition sint (w : Z) (v : Z) : Z :=
  let m := v mod 2 ^ w in
  if m <? 2 ^ (w - 1) then m else m - 2 ^ w.

Definition b2z (b : byte) : Z := Z.of_N (Byte.to_N b).

(** ** Items and the tokenizer *)

Record item := Item {
  it_size : Z;  (* 0,1,2,4 or 255 for long *)
  it_type : Z;  (* 0=Main,1=Global,2=Local,3=Reserved *)
  it_tag : Z;
  it_data : Z   (* zero-extended *)
}.

(** The value-initialised [item{}]. *)
Definition item_zero : item := Item 0 0 0 0.

Definition is_long_item (prefix : Z) : bool := prefix =? 0xFE.

(** The data loop of [parse_item]:
    for each [i] below [it.size], stop when the cursor is at the end,
    else or the next byte, shifted left by [8 * i], into [v];
    [n] is the number of iterations left. *)
Fixpoint read_data (n : nat) (i : Z) (v : Z) (p : list byte) : Z * list byte :=
  match n with
  | O => (v, p)
  | S n' =>
    match p with
    | [] => (v, p)
    | b :: p' => read_data n' (i + 1) (Z.lor v (u32 (Z.shiftl (b2z b) (8 * i)))) p'
    end
  end.

(** [parse_item(p, end)]: the item and the cursor after it. *)
Definition parse_item (p : list byte) : item * list byte :=
  match p with
  | [] => (item_zero, [])
  | b :: p1 =>
    let prefix := b2z b in
    if is_long_item prefix then
      match p1 with
      | data_size :: _ :: p3 =>
        (Item 0xFF 3 0xFF 0, drop (Z.to_nat (b2z data_size)) p3)
      | _ => (item_zero, p1)
      end
    else
      let bSizeCode := Z.land prefix 0x03 in
      let size := if bSizeCode =? 3 then 4 else bSizeCode in
      let type := Z.land (Z.shiftr prefix 2) 0x03 in
      let tag := Z.land (Z.shiftr prefix 4) 0x0F in
      let '(v, p') := read_data (Z.to_nat size) 0 0 p1 in
      (Item size type tag v, p')
  end.

Definition sign_extend (v : Z) (size : Z) : Z :=
  if size =? 1 then sint 8 v
  else if size =? 2 then sint 16 v
  else sint 32 v.

(** ** Evaluator state *)

Record global_state := GlobalState {
  g_usage_page : Z;
  g_report_id : Z;
  g_report_size_bits : Z;
  g_report_count : Z;
  g_logical_min : Z;
  g_logical_max : Z;
  g_physical_min : Z;
  g_physical_max : Z;
  g_unit : Z;
  g_unit_exponent : Z
}.

Definition global_state_init : global_state :=
  GlobalState 0 0 0 0 0 0 0 0 0 0.

Record local_state := LocalState {
  l_usages : list Z;
  l_has_usage_minmax : bool;
  l_usage_min : Z;
  l_usage_max : Z
}.

(** [local_state::clear()], also the initial local state. *)
Definition local_clear : local_state := LocalState [] false 0 0.

(** ** The descriptor tree *)

Inductive field_kind := input | output | feature.

Record report_field := ReportField {
  f_kind : field_kind;
  f_report_id : Z;
  f_usage_page : Z;
  f_usages : list Z;
  f_report_size_bits : Z;
  f_report_count : Z;
  f_logical_min : Z;
  f_logical_max : Z;
  f_physical_min : Z;
  f_physical_max : Z;
  f_unit : Z;
  f_unit_exponent : Z;
  f_flags : Z
}.

#[local] Unset Elimination Schemes.
Inductive collection_node := CollectionNode {
  c_type : Z;
  c_usage_page : Z;
  c_usage : Z;
  c_fields : list report_field;
  c_children : list collection_node
}.

#[local] Set Elimination Schemes.

Definition collection_node_init : collection_node :=
  CollectionNode 0 0 0 [] [].

(** A [collection_node*]: child positions from the root. *)
Definition node_ptr := list nat.
(** The place of a field in the tree: the owning node and the position
    in its [fields]. *)
Definition field_ptr := (node_ptr * nat)%type.

Fixpoint get_node (n : collection_node) (p : node_ptr) : option collection_node :=
  match p with
  | [] => Some n
  | i :: p' =>
    match c_children n !! i with
    | Some c => get_node c p'
    | None => None
    end
  end.

Fixpoint update_node (f : collection_node -> collection_node)
    (n : collection_node) (p : node_ptr) : collection_node :=
  match p with
  | [] => f n
  | i :: p' =>
    match c_children n !! i with
    | Some c =>
      CollectionNode (c_type n) (c_usage_page n) (c_usage n) (c_fields n)
        (<[i := update_node f c p']> (c_children n))
    | None => n
    end
  end.

Definition get_field (root : collection_node) (pf : field_ptr) : option report_field :=
  match get_node root pf.1 with
  | Some n => c_fields n !! pf.2
  | None => None
  end.

Definition emplace_child (c : collection_node) (n : collection_node) : collection_node :=
  CollectionNode (c_type n) (c_usage_page n) (c_usage n) (c_fields n)
    (c_children n ++ [c]).

Definition emplace_field (f : report_field) (n : collection_node) : collection_node :=
  CollectionNode (c_type n) (c_usage_page n) (c_usage n) (c_fields n ++ [f])
    (c_children n).

(** ** The storage of a [fields] vector and pointers into it

    [fields] is a [std::vector<report_field>] that starts empty and is
    only ever appended to, by [emplace_back] and without [reserve].  When
    [emplace_back] finds the vector full ([size() == capacity()]) it
    moves the elements to a new buffer and frees the old one, which
    invalidates every pointer to an element.  The new capacity is that of
    libstdc++ and of libc++, [size() + max(size(), 1)]: the buffers of one
    vector have the capacities 1, 2, 4, 8, ..., so that the capacity names
    the buffer. *)
Definition vector_grow (size : nat) : nat := (size + Nat.max size 1)%nat.

(** The capacity of a vector after [n] calls of [emplace_back]. *)
Fixpoint vector_capacity (n : nat) : nat :=
  match n with
  | O => O
  | S n' =>
    let c := vector_capacity n' in
    if (n' <? c)%nat then c else vector_grow n'
  end.

(** A [const report_field*]: the node whose [fields] it points into, the
    buffer of that vector (by its capacity) and the position in it. *)
Record report_field_ptr := FieldPtr {
  fp_node : node_ptr;
  fp_buffer : nat;
  fp_pos : nat
}.

(** The place in the tree at which a pointer was taken. *)
Definition place (pf : report_field_ptr) : field_ptr := (fp_node pf, fp_pos pf).

(** [&node->fields.back()] for the node at [p], which has a field. *)
Definition back_ptr (root : collection_node) (p : node_ptr) : report_field_ptr :=
  let size := length (c_fields (default collection_node_init (get_node root p))) in
  FieldPtr p (vector_capacity size) (size - 1).

(** [*pf]: the field the pointer points to, as long as the vector still
    lives in the buffer the pointer points into; [None] when that buffer
    has been freed: the pointer dangles and reading through it is
    undefined. *)
Definition deref (root : collection_node) (pf : report_field_ptr)
    : option report_field :=
  match get_node root (fp_node pf) with
  | Some n =>
    if (fp_buffer pf =? vector_capacity (length (c_fields n)))%nat
    then c_fields n !! fp_pos pf
    else None
  | None => None
  end.

(** ** The parser: [report_descriptor_tree::parse] *)

(** The locals of [parse] that live across loop iterations, together with
    the two members of the tree being built. *)
Record parser := Parser {
  root_ : collection_node;
  index_by_report_id_ : gmap Z (list report_field_ptr);
  current : node_ptr;
  stack : list node_ptr;        (* top first *)
  g : global_state;
  gstack : list global_state;   (* top first *)
  l : local_state
}.

Definition parser_init : parser :=
  Parser collection_node_init ∅ [] [[]] global_state_init [] local_clear.

Definition set_l (st : parser) (l' : local_state) : parser :=
  Parser (root_ st) (index_by_report_id_ st) (current st) (stack st)
    (g st) (gstack st) l'.

(** The node [current] points to. *)
Definition current_node (st : parser) : collection_node :=
  default collection_node_init (get_node (root_ st) (current st)).

(** The range loop of the Input/Output/Feature case:
    [for (uint32_t u = l.usage_min; u <= l.usage_max; ++u)
       f.usages.push_back(u);]
    [fuel] bounds the number of times the loop condition is evaluated;
    [None] means the loop is still running when the bound is reached. *)
Fixpoint usage_range_loop (fuel : nat) (u usage_max : Z) (usages : list Z)
    : option (list Z) :=
  match fuel with
  | O => None
  | S fuel' =>
    if u <=? usage_max
    then usage_range_loop fuel' (u32 (u + 1)) usage_max (usages ++ [u])
    else Some usages
  end.

(** The [usages] of the field built at an Input/Output/Feature item. *)
Definition field_usages (fuel : nat) (l : local_state) : option (list Z) :=
  if l_has_usage_minmax l then
    usage_range_loop fuel (l_usage_min l) (l_usage_max l) []
  else if negb (bool_decide (l_usages l = [])) then Some (l_usages l)
  else Some [].

Definition make_field (kind : field_kind) (data : Z) (g : global_state)
    (usages : list Z) : report_field :=
  {| f_kind := kind;
     f_flags := u8 data;
     f_report_id := g_report_id g;
     f_usage_page := g_usage_page g;
     f_usages := usages;
     f_report_size_bits := g_report_size_bits g;
     f_report_count := g_report_count g;
     f_logical_min := g_logical_min g;
     f_logical_max := g_logical_max g;
     f_physical_min := g_physical_min g;
     f_physical_max := g_physical_max g;
     f_unit := g_unit g;
     f_unit_exponent := g_unit_exponent g |}.

(** [index_by_report_id_[id].push_back(pf)]. *)
Definition index_push (id : Z) (pf : report_field_ptr)
    (index : gmap Z (list report_field_ptr)) : gmap Z (list report_field_ptr) :=
  <[id := default [] (index !! id) ++ [pf]]> index.

(** Main items ([it.type == 0]). *)
Definition step_main (fuel : nat) (st : parser) (it : item) : option parser :=
  if it_tag it =? 0x0A then (* Collection *)
    let node :=
      CollectionNode (u8 (it_data it)) (g_usage_page (g st))
        (default 0 (last (l_usages (l st)))) [] [] in
    let current' := current st ++ [length (c_children (current_node st))] in
    Some (Parser (update_node (emplace_child node) (root_ st) (current st))
            (index_by_report_id_ st) current' (current' :: stack st)
            (g st) (gstack st) local_clear)
  else if it_tag it =? 0x0C then (* End Collection *)
    match stack st with
    | _ :: top :: stack' => (* stack.size() > 1 *)
      Some (Parser (root_ st) (index_by_report_id_ st) top (top :: stack')
              (g st) (gstack st) local_clear)
    | _ => Some (set_l st local_clear)
    end
  else if (it_tag it =? 0x08) || (it_tag it =? 0x09) || (it_tag it =? 0x0B) then
    let kind :=
      if it_tag it =? 0x08 then input
      else if it_tag it =? 0x09 then output else feature in
    match field_usages fuel (l st) with
    | None => None
    | Some usages =>
      let f := make_field kind (it_data it) (g st) usages in
      let root' := update_node (emplace_field f) (root_ st) (current st) in
      let pf := back_ptr root' (current st) in
      Some (Parser root'
              (index_push (f_report_id f) pf (index_by_report_id_ st))
              (current st) (stack st) (g st) (gstack st) local_clear)
    end
  else (* Unknown main item, ignore *)
    Some (set_l st local_clear).

(** The [switch (it.tag)] of a Global item ([it.type == 1]) on the global
    state and the stack of saved global states (top first). *)
Definition eval_global (gs : global_state) (gstack : list global_state)
    (it : item) : global_state * list global_state :=
  let tag := it_tag it in
  let data := it_data it in
  let sx := sign_extend data (it_size it) in
  let 'GlobalState up id sz cnt lmin lmax pmin pmax un ue := gs in
  if tag =? 0x00 then (GlobalState (u16 data) id sz cnt lmin lmax pmin pmax un ue, gstack)
  else if tag =? 0x01 then (GlobalState up id sz cnt sx lmax pmin pmax un ue, gstack)
  else if tag =? 0x02 then (GlobalState up id sz cnt lmin sx pmin pmax un ue, gstack)
  else if tag =? 0x03 then (GlobalState up id sz cnt lmin lmax sx pmax un ue, gstack)
  else if tag =? 0x04 then (GlobalState up id sz cnt lmin lmax pmin sx un ue, gstack)
  else if tag =? 0x05 then (GlobalState up id sz cnt lmin lmax pmin pmax un (sint 8 sx), gstack)
  else if tag =? 0x06 then (GlobalState up id sz cnt lmin lmax pmin pmax data ue, gstack)
  else if tag =? 0x07 then (GlobalState up id data cnt lmin lmax pmin pmax un ue, gstack)
  else if tag =? 0x08 then (GlobalState up (u8 data) sz cnt lmin lmax pmin pmax un ue, gstack)
  else if tag =? 0x09 then (GlobalState up id sz data lmin lmax pmin pmax un ue, gstack)
  else if tag =? 0x0A then (gs, gs :: gstack) (* Push *)
  else if tag =? 0x0B then (* Pop *)
    match gstack with
    | top :: gstack' => (top, gstack')
    | [] => (gs, gstack)
    end
  else (gs, gstack).

Definition step_global (st : parser) (it : item) : parser :=
  let '(g', gstack') := eval_global (g st) (gstack st) it in
  Parser (root_ st) (index_by_report_id_ st) (current st) (stack st)
    g' gstack' (l st).

(** Local items ([it.type == 2]). *)
Definition step_local (st : parser) (it : item) : parser :=
  let ls := l st in
  if it_tag it =? 0x00 then
    set_l st (LocalState (l_usages ls ++ [it_data it]) (l_has_usage_minmax ls)
                (l_usage_min ls) (l_usage_max ls))
  else if it_tag it =? 0x01 then
    set_l st (LocalState (l_usages ls) true (it_data it) (l_usage_max ls))
  else if it_tag it =? 0x02 then
    set_l st (LocalState (l_usages ls) true (l_usage_min ls) (it_data it))
  else st.

(** The [switch (it.type)] of the main loop. *)
Definition step (fuel : nat) (st : parser) (it : item) : option parser :=
  if it_type it =? 0 then step_main fuel st it
  else if it_type it =? 1 then Some (step_global st it)
  else if it_type it =? 2 then Some (step_local st it)
  else Some st.

(** [while (p < end) { item it = parse_item(p, end); switch ... }].
    [n] bounds the iterations; every iteration reads at least one byte, so
    the length of the input is enough ([parse_loop_steps]). *)
Fixpoint parse_loop (n : nat) (fuel : nat) (st : parser) (p : list byte)
    : option parser :=
  match p with
  | [] => Some st
  | _ :: _ =>
    match n with
    | O => None
    | S n' =>
      let '(it, p') := parse_item p in
      match step fuel st it with
      | Some st' => parse_loop n' fuel st' p'
      | None => None
      end
    end
  end.

Record report_descriptor_tree := Tree {
  root : collection_node;
  index : gmap Z (list report_field_ptr);
  source_bytes : list byte
}.

Definition tree_of (st : parser) (bytes : list byte) : report_descriptor_tree :=
  Tree (root_ st) (index_by_report_id_ st) bytes.

(** [parse(bytes)]; [fuel] is the bound of each usage range loop. *)
Definition parse (fuel : nat) (bytes : list byte) : option report_descriptor_tree :=
  match parse_loop (length bytes) fuel parser_init bytes with
  | Some st => Some (tree_of st bytes)
  | None => None
  end.

Definition find_by_report_id (t : report_descriptor_tree) (report_id : Z)
    : list report_field_ptr :=
  match index t !! report_id with
  | None => []
  | Some v => v
  end.

(** The items the loop of [parse] reads, in order: [parse_item] does not
    look at the evaluator state.  [n] bounds their number. *)
Fixpoint tokenize (n : nat) (p : list byte) : list item :=
  match p with
  | [] => []
  | _ :: _ =>
    match n with
    | O => []
    | S n' => let '(it, p') := parse_item p in it :: tokenize n' p'
    end
  end.

Definition items_of (bytes : list byte) : list item :=
  tokenize (length bytes) bytes.

(** The evaluator run over a sequence of items. *)
Fixpoint steps (fuel : nat) (st : parser) (its : list item) : option parser :=
  match its with
  | [] => Some st
  | it :: its' =>
    match step fuel st it with
    | Some st' => steps fuel st' its'
    | None => None
    end
  end.

(** ** Notions used in the properties *)

(** The inclusive ascending sequence [usage_min, usage_min+1, ...,
    usage_max]; empty when [usage_min > usage_max]. *)
Definition usage_range (usage_min usage_max : Z) : list Z :=
  (fun i => usage_min + Z.of_nat i) <$> seq 0 (Z.to_nat (usage_max - usage_min + 1)).

(** An update of a node that only appends to its two vectors. *)
Definition appends (h : collection_node -> collection_node) : Prop :=
  forall n, c_fields n `prefix_of` c_fields (h n)
            /\ c_children n `prefix_of` c_children (h n).

(** [current] and every pointer on the collection stack point to a node
    of the tree. *)
Definition valid_ptrs (st : parser) : Prop :=
  is_Some (get_node (root_ st) (current st))
  /\ Forall (fun p => is_Some (get_node (root_ st) p)) (stack st).

(** The place of a field relative to the node at [q], seen from the
    root. *)
Definition prepend_ptr (q : node_ptr) (pf : field_ptr) : field_ptr :=
  (q ++ pf.1, pf.2).

(** A Usage Maximum item with the value 0xFFFFFFFF. *)
Definition is_full_usage_max (it : item) : bool :=
  (it_type it =? 2) && (it_tag it =? 0x02) && (it_data it =? 2 ^ 32 - 1).

(** The local states on which the range loop ends. *)
Definition usage_range_ends (ls : local_state) : Prop :=
  0 <= l_usage_min ls /\ l_usage_max ls < 2 ^ 32 - 1.

(** Enough iterations for every range loop that ends. *)
Definition range_fuel : nat := Z.to_nat (2 ^ 32).

(** The number of bytes one call of [parse_item] reads from [p]. *)
Definition consumed (p : list byte) : nat :=
  (length p - length (parse_item p).2)%nat.

(** A Global item that is neither Push nor Pop. *)
Definition is_global_mutation (it : item) : Prop :=
  it_type it = 1 /\ it_tag it <> 0x0A /\ it_tag it <> 0x0B.

(** The long-item scenario of the specification. *)
Definition long_item_example : list byte :=
  [xfe; x03; xaa; x11; x22; x33; x05; x01].

(** Usage Maximum 0xFFFFFFFF, then Input. *)
Definition full_range_input : list byte :=
  [x2b; xff; xff; xff; xff; x81; x00].

(** Usage Minimum 0xFFFFFFFE, Usage Maximum 0xFFFFFFFF, then Input. *)
Definition top_range_input : list byte :=
  [x1b; xfe; xff; xff; xff; x2b; xff; xff; xff; xff; x81; x00].

(** Input, Collection, Input, End Collection, Input: the root gets a
    field after its child collection was opened. *)
Definition field_after_child : list byte :=
  [x81; x01; xa1; x00; x81; x02; xc0; x81; x03].

(** ** Text output *)

Local Open Scope string_scope.
Local Open Scope Z_scope.

Definition nl : string := String (ascii_of_nat 10) EmptyString.

(** [std::string(n, ' ')]. *)
Fixpoint spaces (n : nat) : string :=
  match n with
  | O => ""
  | S n' => String " " (spaces n')
  end.

Fixpoint zeros (n : nat) : string :=
  match n with
  | O => ""
  | S n' => String "0" (zeros n')
  end.

Definition hex_digit (d : Z) : ascii :=
  if d <? 10 then ascii_of_nat (Z.to_nat (48 + d))
  else ascii_of_nat (Z.to_nat (55 + d)).

Fixpoint hex_digits (n : nat) (x : Z) (acc : string) : string :=
  match n with
  | O => acc
  | S n' =>
    let acc' := String (hex_digit (x mod 16)) acc in
    if x / 16 =? 0 then acc' else hex_digits n' (x / 16) acc'
  end.

(** [std::format("{:0wX}", x)] for an unsigned [x] below [2^64];
    [{:X}] is [format_X 1]. *)
Definition format_X (w : nat) (x : Z) : string :=
  let s := hex_digits 16 x "" in
  zeros (w - String.length s) +:+ s.

(** [os << x] for an integer [x]. *)
Definition dec (x : Z) : string := NilZero.string_of_int (Z.to_int x).

Definition collection_type_name (t : Z) : string :=
  if t =? 0x00 then "Physical"
  else if t =? 0x01 then "Application"
  else if t =? 0x02 then "Logical"
  else if t =? 0x03 then "Report"
  else if t =? 0x04 then "Named Array"
  else if t =? 0x05 then "Usage Switch"
  else if t =? 0x06 then "Usage Modifier"
  else "Reserved".


Definition usage_page_name (page : Z) : string :=
  if page =? 0x01 then "Generic Desktop Ctrls"
  else if page =? 0x07 then "Kbrd/Keypad"
  else if page =? 0x08 then "LEDs"
  else if page =? 0x09 then "Button"
  else if page =? 0x0C then "Consumer"
  else if page =? 0x0D then "Digitizer"
  else if page =? 0x0E then "Reserved 0x0E"
  else if page =? 0x0A then "Ordinal"
  else if (0xFF00 <=? page) && (page <=? 0xFFFF)
    then "Vendor Defined 0x" +:+ format_X 4 page
  else "0x" +:+ format_X 2 page.

Definition usage_name (page : Z) (usage : Z) : string :=
  let fallback := "0x" +:+ format_X 1 usage in
  if page =? 0x01 then
    if usage =? 0x01 then "Pointer"
    else if usage =? 0x02 then "Mouse"
    else if usage =? 0x30 then "X"
    else if usage =? 0x31 then "Y"
    else if usage =? 0x38 then "Wheel"
    else fallback
  else if page =? 0x0D then
    if usage =? 0x20 then "Stylus" else fallback
  else if page =? 0x0E then
    if usage =? 0x01 then "Simple Haptic Controller"
    else if usage =? 0x24 then "Repeat Count"
    else if usage =? 0x23 then "Intensity"
    else if usage =? 0x20 then "Auto Trigger"
    else if usage =? 0x21 then "Manual Trigger"
    else if usage =? 0x28 then "Waveform Cutoff Time"
    else if usage =? 0x25 then "Retrigger Period"
    else if usage =? 0x22 then "Auto Trigger Associated Control"
    else if usage =? 0x11 then "Duration List"
    else if usage =? 0x10 then "Waveform List"
    else fallback
  else if page =? 0x0C then
    if usage =? 0xE0 then "Volume" else fallback
  else fallback.

Definition input_output_feature_flags_text (raw : Z) (kind : field_kind) : string :=
  let bit (i : Z) (yes no : string) := if Z.testbit raw i then yes else no in
  bit 0 "Const" "Data" +:+ "," +:+
  bit 1 "Var" "Array" +:+ "," +:+
  bit 2 "Rel" "Abs" +:+ "," +:+
  bit 3 "Wrap" "No Wrap" +:+ "," +:+
  bit 4 "Non-linear" "Linear" +:+ "," +:+
  bit 5 "No Preferred State" "Preferred State" +:+ "," +:+
  bit 6 "Null Position" "No Null Position" +:+ "," +:+
  match kind with
  | input => bit 7 "Buffered Bytes" "Bitfield"
  | _ => bit 7 "Non-volatile" "Volatile"
  end.

(** The byte list of [append_item_bytes], [first] as in the source. *)
Fixpoint item_bytes_text (first : bool) (bs : list byte) : string :=
  match bs with
  | [] => ""
  | b :: bs' =>
    (if first then "" else ", ") +:+ "0x" +:+ format_X 2 (b2z b) +:+
    item_bytes_text false bs'
  end.

Definition append_item_bytes (bs : list byte) : string :=
  let len := length bs in
  let pads := if (24 <=? len * 6)%nat then 1%nat else (24 - len * 6)%nat in
  item_bytes_text true bs +:+ spaces pads.

(** The description of one item in [to_string], with the renderer's
    [usage_page] and [depth] after it. *)
Definition describe (it : item) (usage_page : Z) (depth : Z) : string * Z * Z :=
  let tag := it_tag it in
  let data := it_data it in
  if it_type it =? 0 then
    if tag =? 0x0A then
      ("Collection (" +:+ collection_type_name (u8 data) +:+ ")", usage_page, depth + 1)
    else if tag =? 0x0C then
      ("End Collection", usage_page, if 0 <? depth then depth - 1 else depth)
    else if tag =? 0x08 then
      ("Input (" +:+ input_output_feature_flags_text (u8 data) input +:+ ")", usage_page, depth)
    else if tag =? 0x09 then
      ("Output (" +:+ input_output_feature_flags_text (u8 data) output +:+ ")", usage_page, depth)
    else if tag =? 0x0B then
      ("Feature (" +:+ input_output_feature_flags_text (u8 data) feature +:+ ")", usage_page, depth)
    else ("Main (tag=0x" +:+ format_X 1 tag +:+ ")", usage_page, depth)
  else if it_type it =? 1 then
    if tag =? 0x00 then
      ("Usage Page (" +:+ usage_page_name (u16 data) +:+ ")", u16 data, depth)
    else if tag =? 0x01 then
      ("Logical Minimum (" +:+ dec (sign_extend data (it_size it)) +:+ ")", usage_page, depth)
    else if tag =? 0x02 then
      ("Logical Maximum (" +:+ dec (sign_extend data (it_size it)) +:+ ")", usage_page, depth)
    else if tag =? 0x03 then
      ("Physical Minimum (" +:+ dec (sign_extend data (it_size it)) +:+ ")", usage_page, depth)
    else if tag =? 0x04 then
      ("Physical Maximum (" +:+ dec (sign_extend data (it_size it)) +:+ ")", usage_page, depth)
    else if tag =? 0x05 then ("Unit Exponent", usage_page, depth)
    else if tag =? 0x06 then ("Unit (System: SI Linear, Time: Seconds)", usage_page, depth)
    else if tag =? 0x07 then ("Report Size (" +:+ dec data +:+ ")", usage_page, depth)
    else if tag =? 0x08 then ("Report ID (" +:+ dec (u8 data) +:+ ")", usage_page, depth)
    else if tag =? 0x09 then ("Report Count (" +:+ dec data +:+ ")", usage_page, depth)
    else ("Global (tag=0x" +:+ format_X 1 tag +:+ ")", usage_page, depth)
  else if it_type it =? 2 then
    if tag =? 0x00 then ("Usage (" +:+ usage_name usage_page data +:+ ")", usage_page, depth)
    else if tag =? 0x01 then ("Usage Minimum (0x" +:+ format_X 2 data +:+ ")", usage_page, depth)
    else if tag =? 0x02 then ("Usage Maximum (0x" +:+ format_X 2 data +:+ ")", usage_page, depth)
    else ("Local (tag=0x" +:+ format_X 1 tag +:+ ")", usage_page, depth)
  else ("Reserved", usage_page, depth).

(** The loop of [to_string]; [n] bounds the iterations as in
    [parse_loop]. *)
Fixpoint to_string_loop (n : nat) (usage_page : Z) (depth : Z) (p : list byte)
    : string :=
  match p with
  | [] => ""
  | _ :: _ =>
    match n with
    | O => ""
    | S n' =>
      let '(it, p') := parse_item p in
      let '(text, usage_page', depth') := describe it usage_page depth in
      append_item_bytes (take (length p - length p') p) +:+
      "// " +:+ spaces (Z.to_nat (depth * 2)) +:+ text +:+ nl +:+
      to_string_loop n' usage_page' depth' p'
    end
  end.

(** [report_descriptor_tree::to_string]. *)
Definition to_string (t : report_descriptor_tree) : string :=
  to_string_loop (length (source_bytes t)) 0 0 (source_bytes t) +:+
  nl +:+ "// " +:+ dec (Z.of_nat (length (source_bytes t))) +:+ " bytes" +:+ nl.




(** ** The tree dump and the index entry in the specification's words *)







(** The places of the fields of the children [chs], the first of which
    is child number [j], given the places [dfs] of one node. *)
Fixpoint children_field_ptrs (dfs : collection_node -> list field_ptr)
    (j : nat) (chs : list collection_node) : list field_ptr :=
  match chs with
  | [] => []
  | ch :: chs' =>
    ((fun pf : field_ptr => (j :: pf.1, pf.2)) <$> dfs ch) ++
    children_field_ptrs dfs (S j) chs'
  end.

(** The fields of the tree under [node] in depth-first order, a
    collection's own fields before its children. *)
Fixpoint dfs_field_ptrs (node : collection_node) : list field_ptr :=
  ((fun i => ([], i)) <$> seq 0 (length (c_fields node))) ++
  children_field_ptrs dfs_field_ptrs 0 (c_children node).

(** The fields among [pfs] whose [report_id] in the tree under [root] is
    [k]. *)
Definition with_report_id (root : collection_node) (k : Z)
    (pfs : list field_ptr) : list field_ptr :=
  filter (fun pf => f_report_id <$> get_field root pf = Some k) pfs.

(** The index entry for [k] as the index-consistency property words it. *)
Definition dfs_index_entry (t : report_descriptor_tree) (k : Z) : list field_ptr :=
  with_report_id (root t) k (dfs_field_ptrs (root t)).

(** ** The Input/Output/Feature items of a run, in stream order *)

Definition is_field_item (it : item) : bool :=
  (it_type it =? 0) &&
  ((it_tag it =? 0x08) || (it_tag it =? 0x09) || (it_tag it =? 0x0B)).

(** Where [current->fields.emplace_back] puts the next field. *)
Definition next_field_ptr (st : parser) : field_ptr :=
  (current st, length (c_fields (current_node st))).

(** The places of the fields appended while the evaluator runs over
    [its] from [st], in the order of their items. *)
Fixpoint emitted_ptrs (fuel : nat) (st : parser) (its : list item)
    : list field_ptr :=
  match its with
  | [] => []
  | it :: its' =>
    match step fuel st it with
    | Some st' =>
      (if is_field_item it then [next_field_ptr st] else []) ++
      emitted_ptrs fuel st' its'
    | None => []
    end
  end.

(** The pointer [&node->fields.back()] had when the field at [pf] was
    appended. *)
Definition ptr_taken_at (pf : field_ptr) : report_field_ptr :=
  FieldPtr pf.1 (vector_capacity (S pf.2)) pf.2.

(** The index holds the pointers taken at the fields [ptrs] appended so
    far, which are the fields of the tree. *)
Definition index_consistent (st : parser) (ptrs : list field_ptr) : Prop :=
  (forall k, default [] (index_by_report_id_ st !! k)
             = ptr_taken_at <$> with_report_id (root_ st) k ptrs)
  /\ Forall (fun pf => is_Some (get_field (root_ st) pf)) ptrs
  /\ ptrs ≡ₚ dfs_field_ptrs (root_ st).

(** ** The hidraw device: [device::feature_get] *)

Inductive exception :=
| runtime_error (what : string)
| invalid_argument (what : string)
| system_error (code : Z) (what : string).

Record device := Device { fd : Z }.

(** What [ioctl(fd, HIDIOCGFEATURE(len), buf)] answers: the return value,
    [errno], and the buffer afterwards. *)
Record ioctl_result := IoctlResult {
  ret : Z;
  errno : Z;
  buffer : list byte
}.

Section hidraw.
(** The operating system: the answer to a feature ioctl on a file
    descriptor with a buffer. *)
Variable ioctl_HIDIOCGFEATURE : Z -> list byte -> ioctl_result.

(** [device::feature_get(data)].  [calls] is the log of the ioctl calls
    made so far; the result is the log afterwards and either the
    exception thrown or the buffer as the call leaves it. *)
Definition feature_get (dev : device) (data : list byte)
    (calls : list (Z * list byte))
    : list (Z * list byte) * (exception + list byte) :=
  if fd dev <? 0 then (calls, inl (runtime_error "Device not opened"))
  else if bool_decide (data = []) then
    (calls, inl (invalid_argument "Data buffer is empty"))
  else
    let r := ioctl_HIDIOCGFEATURE (fd dev) data in
    let calls' := (calls ++ [(fd dev, data)])%list in
    if ret r <? 0 then
      (calls', inl (system_error (errno r) "Failed to get feature report"))
    else if negb (ret r =? Z.of_nat (length data)) then
      (calls', inl (runtime_error "Incomplete feature report read"))
    else (calls', inr (buffer r)).

(** The three cases of the feature-get contract as the specification
    words them, for an opened device. *)
Definition feature_get_contract (dev : device) (data : list byte) : Prop :=
  let r := ioctl_HIDIOCGFEATURE (fd dev) data in
  if bool_decide (data = []) then
    exists what, feature_get dev data [] = ([], inl (invalid_argument what))
  else if ret r <? Z.of_nat (length data) then
    (feature_get dev data []).2 = inl (runtime_error "Incomplete feature report read")
  else
    (feature_get dev data []).2 = inr (buffer r).
End hidraw.

(** ** Example inputs *)

(** Usage Page 9, Report ID 7, Input, Usage Page 1. *)
Definition state_locality_example : list byte :=
  [x05; x09; x85; x07; x81; x02; x05; x01].

Definition tree_empty : report_descriptor_tree :=
  Tree collection_node_init ∅ [].

(** The minimal mouse descriptor. *)
Definition mouse : list byte :=
  [x05;x01; x09;x02; xa1;x01; x09;x01; xa1;x00; x05;x09; x19;x01; x29;x03;
   x15;x00; x25;x01; x95;x03; x75;x01; x81;x02; x95;x01; x75;x05; x81;x03;
   xc0; xc0].

Definition mouse_tree : report_descriptor_tree :=
  default tree_empty (parse 10 mouse).

Definition state_locality_tree : report_descriptor_tree :=
  default tree_empty (parse 0 state_locality_example).

Definition field_after_child_tree : report_descriptor_tree :=
  default tree_empty (parse 0 field_after_child).

(** An ioctl that fills the buffer after the Report ID byte and returns
    its size. *)
Definition ioctl_fills (fd : Z) (buf : list byte) : ioctl_result :=
  IoctlResult (Z.of_nat (length buf)) 0
    (take 1 buf ++ replicate (length buf - 1) x2a).

(** An ioctl that fails with [EIO]. *)
Definition ioctl_fails (fd : Z) (buf : list byte) : ioctl_result :=
  IoctlResult (-1) 5 buf.

(** ** Further notions: items, state and tree *)

(** The value of the bytes [bs] read little-endian. *)
Fixpoint le_value (bs : list byte) : Z :=
  match bs with
  | [] => 0
  | b :: bs' => b2z b + 256 * le_value bs'
  end.

(** The bytes of the items of [p], one list per call of [parse_item]:
    the [start .. ib_end] of each iteration of the loop of [to_string]. *)
Fixpoint item_spans (n : nat) (p : list byte) : list (list byte) :=
  match p with
  | [] => []
  | _ :: _ =>
    match n with
    | O => []
    | S n' =>
      let '(it, p') := parse_item p in
      take (length p - length p') p :: item_spans n' p'
    end
  end.

(** What the tokenizer yields: the long-item marker, or a short item with
    a 4-bit tag, a 2-bit type, a size of 0, 1, 2 or 4 and a data word of
    that many bytes. *)
Definition item_wf (it : item) : Prop :=
  it = Item 0xFF 3 0xFF 0
  \/ (0 <= it_tag it < 16 /\ 0 <= it_type it < 4
      /\ (it_size it = 0 \/ it_size it = 1 \/ it_size it = 2 \/ it_size it = 4)
      /\ 0 <= it_data it < 2 ^ (8 * it_size it)).

Definition is_collection_item (it : item) : bool :=
  (it_type it =? 0) && (it_tag it =? 0x0A).

Definition is_end_collection_item (it : item) : bool :=
  (it_type it =? 0) && (it_tag it =? 0x0C).

Definition is_pop_item (it : item) : bool :=
  (it_type it =? 1) && (it_tag it =? 0x0B).

(** The pointers from [p] up to the root: [p], its parent, ..., the
    root. *)
Definition ancestors (p : node_ptr) : list node_ptr :=
  (fun k => take k p) <$> reverse (seq 0 (S (length p))).

(** The collection nodes below [chs], given the count for one node. *)
Fixpoint children_count (count : collection_node -> nat)
    (chs : list collection_node) : nat :=
  match chs with
  | [] => O
  | ch :: chs' => (S (count ch) + children_count count chs')%nat
  end.

(** The number of collection nodes below [node]. *)
Fixpoint node_count (node : collection_node) : nat :=
  children_count node_count (c_children node).

(** The [usage_page] and [depth] of the loop of [to_string] after the
    items [its], from [usage_page = 0] and [depth = 0]. *)
Definition render_state (s : Z * Z) (it : item) : Z * Z :=
  let '(_, usage_page, depth) := describe it s.1 s.2 in (usage_page, depth).

Definition render_states (its : list item) : Z * Z :=
  foldl render_state (0, 0) its.

(** ** The annotated listing, line by line *)




(** The number of line feeds in a text. *)
Fixpoint count_nl (s : string) : nat :=
  match s with
  | EmptyString => O
  | String c s' => ((if Ascii.eqb c (ascii_of_nat 10) then 1 else 0) + count_nl s')%nat
  end.

(** ** The hidraw device: descriptors, opening and closing, queries *)

Definition u64 (x : Z) : Z := x mod 2 ^ 64.

(** The buffer [descriptor::ptr] points to: [report_descriptor_head] and
    the bytes after it. *)
Record report_descriptor_buf := ReportDescriptorBuf {
  head_size : Z;
  desc_data : list byte
}.

(** [hidraw::descriptor]; [None] is the null [ptr]. *)
Record descriptor := Descriptor { ptr : option report_descriptor_buf }.

(** The loop of [descriptor::to_hex] from index [i] on. *)
Fixpoint to_hex_loop (i : nat) (data : list byte) : string :=
  match data with
  | [] => ""
  | b :: data' =>
    format_X 2 (b2z b) +:+ " " +:+
    (if ((i + 1) mod 16 =? 0)%nat then nl else "") +:+
    to_hex_loop (S i) data'
  end.

(** [descriptor::to_hex]. *)
Definition to_hex (d : descriptor) : string :=
  match ptr d with
  | None => ""
  | Some buf =>
    "size: " +:+ dec (head_size buf) +:+ nl +:+
    to_hex_loop 0 (take (Z.to_nat (head_size buf)) (desc_data buf))
  end.

(** [descriptor::to_bytes]. *)
Definition to_bytes (d : descriptor) : list byte :=
  match ptr d with
  | None => []
  | Some buf => take (Z.to_nat (head_size buf)) (desc_data buf)
  end.

(** [hidraw::info]. *)
Record info := Info {
  bustype : Z;
  vendor : Z;
  product : Z
}.

(** The system calls the device operations make. *)
Inductive syscall :=
| sys_open (path : string)
| sys_close (fd : Z)
| sys_HIDIOCGRDESCSIZE (fd : Z)
| sys_HIDIOCGRDESC (fd : Z) (size : Z)
| sys_HIDIOCGRAWINFO (fd : Z)
| sys_HIDIOCGRAWNAME (fd : Z) (len : Z)
| sys_HIDIOCGRAWPHYS (fd : Z) (len : Z)
| sys_HIDIOCGFEATURE (fd : Z) (buf : list byte).

(** What an ioctl that stores an [int] answers. *)
Record ioctl_int_result := IoctlIntResult {
  iret : Z;
  ierrno : Z;
  ivalue : Z
}.

(** What [HIDIOCGRAWINFO] answers. *)
Record ioctl_info_result := IoctlInfoResult {
  nret : Z;
  nerrno : Z;
  ninfo : info
}.

(** [device::valid]. *)
Definition valid (dev : device) : bool := negb (fd dev =? -1).

(** [strlen]: the number of bytes before the first NUL. *)
Fixpoint strlen (s : list byte) : nat :=
  match s with
  | [] => O
  | b :: s' => if b2z b =? 0 then O else S (strlen s')
  end.

Section device.
(** The operating system: the answers of [open] and of the ioctls.  For
    the ioctls that fill a buffer, [buffer] is what the kernel wrote, from
    the start of the buffer on. *)
Variable os_open : string -> Z * Z.
Variable os_HIDIOCGRDESCSIZE : Z -> ioctl_int_result.
Variable os_HIDIOCGRDESC : Z -> Z -> ioctl_result.
Variable os_HIDIOCGRAWINFO : Z -> ioctl_info_result.
Variable os_HIDIOCGRAWNAME : Z -> ioctl_result.
Variable os_HIDIOCGRAWPHYS : Z -> ioctl_result.

(** [device::open(path)]: the device afterwards, the log of system calls
    afterwards, and the exception thrown, if any. *)
Definition open (dev : device) (path : string) (calls : list syscall)
    : device * list syscall * option exception :=
  if valid dev then (dev, calls, Some (runtime_error "Device already opened"))
  else
    let '(ret, errno) := os_open path in
    let dev' := Device ret in
    let calls' := (calls ++ [sys_open path])%list in
    if fd dev' <? 0 then
      (dev', calls',
       Some (system_error errno ("Failed to open device at '" +:+ path +:+ "'")))
    else (dev', calls', None).

(** [device::close()]. *)
Definition close (dev : device) (calls : list syscall)
    : device * list syscall :=
  if valid dev then (Device (-1), (calls ++ [sys_close (fd dev)])%list)
  else (dev, calls).

(** [device::report_desc_size()]. *)
Definition report_desc_size (dev : device) (calls : list syscall)
    : list syscall * (exception + Z) :=
  if fd dev <? 0 then (calls, inl (runtime_error "Device not opened"))
  else
    let r := os_HIDIOCGRDESCSIZE (fd dev) in
    let calls' := (calls ++ [sys_HIDIOCGRDESCSIZE (fd dev)])%list in
    if iret r <? 0 then
      (calls', inl (system_error (ierrno r) "Failed to get report descriptor size"))
    else (calls', inr (u64 (ivalue r))).

(** [device::report_desc()]: the descriptor buffer holds what the kernel
    wrote into it. *)
Definition report_desc (dev : device) (calls : list syscall)
    : list syscall * (exception + descriptor) :=
  if fd dev <? 0 then (calls, inl (runtime_error "Device not opened"))
  else
    match report_desc_size dev calls with
    | (calls1, inl e) => (calls1, inl e)
    | (calls1, inr size) =>
      let r := os_HIDIOCGRDESC (fd dev) (u32 size) in
      let calls2 := (calls1 ++ [sys_HIDIOCGRDESC (fd dev) (u32 size)])%list in
      if ret r <? 0 then
        (calls2, inl (system_error (errno r) "Failed to get report descriptor"))
      else
        (calls2, inr (Descriptor (Some (ReportDescriptorBuf (u32 size) (buffer r)))))
    end.

(** [device::raw_info()]. *)
Definition raw_info (dev : device) (calls : list syscall)
    : list syscall * (exception + info) :=
  if fd dev <? 0 then (calls, inl (runtime_error "Device not opened"))
  else
    let r := os_HIDIOCGRAWINFO (fd dev) in
    let calls' := (calls ++ [sys_HIDIOCGRAWINFO (fd dev)])%list in
    if nret r <? 0 then
      (calls', inl (system_error (nerrno r) "Failed to get raw info"))
    else
      (calls', inr (Info (bustype (ninfo r)) (vendor (ninfo r)) (product (ninfo r)))).

(** A string of [max_len] NUL characters after the kernel wrote
    [written] at its start. *)
Definition filled (max_len : nat) (written : list byte) : list byte :=
  take max_len (written ++ replicate max_len x00).

(** [device::raw_name()]. *)
Definition raw_name (dev : device) (calls : list syscall)
    : list syscall * (exception + list byte) :=
  if fd dev <? 0 then (calls, inl (runtime_error "Device not opened"))
  else
    let max_len := 256%nat in
    let r := os_HIDIOCGRAWNAME (fd dev) in
    let calls' := (calls ++ [sys_HIDIOCGRAWNAME (fd dev) (Z.of_nat max_len)])%list in
    if ret r <? 0 then
      (calls', inl (system_error (errno r) "Failed to get raw name"))
    else
      let name := filled max_len (buffer r) in
      (calls', inr (take (strlen name) name)).

(** [device::addr()]. *)
Definition addr (dev : device) (calls : list syscall)
    : list syscall * (exception + list byte) :=
  if fd dev <? 0 then (calls, inl (runtime_error "Device not opened"))
  else
    let max_len := 256%nat in
    let r := os_HIDIOCGRAWPHYS (fd dev) in
    let calls' := (calls ++ [sys_HIDIOCGRAWPHYS (fd dev) (Z.of_nat max_len)])%list in
    if ret r <? 0 then
      (calls', inl (system_error (errno r) "Failed to get raw address"))
    else
      let addr := filled max_len (buffer r) in
      (calls', inr (take (strlen addr) addr)).
End device.


(** ** The command line tool ([main.cpp]) *)

(** [struct interact], without the handler. *)
Record interact := Interact {
  command : string;
  usage_message : string
}.

(** [wrong_usage_exception(cmd, message)]. *)
Inductive usage_exception :=
| wrong_usage_exception (cmd : interact) (message : string).

Inductive errc := errc_ok | errc_invalid_argument | errc_result_out_of_range.

(** The value of a character as a digit in [base] (2 to 36), as
    [std::from_chars] reads it: [0-9], then letters of either case. *)
Definition digit_of (base : Z) (c : ascii) : option Z :=
  let n := Z.of_nat (nat_of_ascii c) in
  let d := if (48 <=? n) && (n <=? 57) then n - 48
           else if (97 <=? n) && (n <=? 122) then n - 87
           else if (65 <=? n) && (n <=? 90) then n - 55
           else 36 in
  if d <? base then Some d else None.

(** The longest run of digits at the start of [s]: its value after
    [acc], whether it is non-empty, and what follows it. *)
Fixpoint from_chars_digits (base : Z) (s : string) (acc : Z) (seen : bool)
    : Z * bool * string :=
  match s with
  | EmptyString => (acc, seen, s)
  | String c s' =>
    match digit_of base c with
    | Some d => from_chars_digits base s' (acc * base + d) true
    | None => (acc, seen, s)
    end
  end.

(** [std::from_chars(first, last, value, base)] for a [uint8_t] value:
    no sign and no prefix is read; with no digit the result is
    [invalid_argument] at [first]; with digits whose value does not fit
    it is [result_out_of_range] after the digits; in both cases [value]
    is left as it was.  The result is what is left unread, the error code
    and [value]. *)
Definition from_chars_u8 (s : string) (value : Z) (base : Z)
    : string * errc * Z :=
  let '(v, seen, rest) := from_chars_digits base s 0 false in
  if negb seen then (s, errc_invalid_argument, value)
  else if 255 <? v then (rest, errc_result_out_of_range, value)
  else (rest, errc_ok, v).

(** [arg.starts_with("0x") || arg.starts_with("0X")] and the argument
    without these two characters. *)
Definition hex_prefix (arg : string) : option string :=
  match arg with
  | String "0" (String "x" rest) => Some rest
  | String "0" (String "X" rest) => Some rest
  | _ => None
  end.

(** [parse_report_id(self, arg)]. *)
Definition parse_report_id (self : interact) (arg : string)
    : usage_exception + Z :=
  if bool_decide (arg = ""%string) then
    inl (wrong_usage_exception self "Wrong report ID")
  else
    let '(arg, base) := match hex_prefix arg with
                        | Some rest => (rest, 16)
                        | None => (arg, 10)
                        end in
    let '(ptr, ec, value) := from_chars_u8 arg 0 base in
    if negb (match ec with errc_ok => true | _ => false end)
       || negb (bool_decide (ptr = ""%string))
       || (0xFF <? value) then
      inl (wrong_usage_exception self "Wrong report ID")
    else inr value.

(** [(f->report_size_bits * f->report_count + 7) / 8], in [uint32_t]. *)
Definition field_size_bytes (f : report_field) : Z :=
  u32 (u32 (f_report_size_bits f * f_report_count f) + 7) / 8.

(** The loop of [feature_get] over the pointers of a report ID, adding
    to [feature_size] (a [size_t]).  It reads [f->kind] through every
    pointer; [None] when one of them dangles, where the behaviour is
    undefined. *)
Fixpoint feature_size_loop (root : collection_node)
    (field : list report_field_ptr) (feature_size : Z) : option Z :=
  match field with
  | [] => Some feature_size
  | p :: rest =>
    match deref root p with
    | Some f =>
      match f_kind f with
      | feature =>
        feature_size_loop root rest (u64 (feature_size + field_size_bytes f))
      | _ => feature_size_loop root rest feature_size
      end
    | None => None
    end
  end.

(** What a run of a command comes to. *)
Inductive outcome (A : Type) :=
| Returns (a : A)
| NeverReturns
| Undefined.
#[global] Arguments Returns {A} a.
#[global] Arguments NeverReturns {A}.
#[global] Arguments Undefined {A}.

(** The byte with value [z] modulo 256. *)
Definition z2b (z : Z) : byte := default x00 (Byte.of_N (Z.to_N (u8 z))).

(** The printing loop of [feature_get], from index [i] on: each byte is
    printed with [println], and a further empty line follows every 16th. *)
Fixpoint print_report_loop (i : nat) (bytes : list byte) : string :=
  match bytes with
  | [] => ""
  | b :: rest =>
    format_X 2 (b2z b) +:+ " " +:+ nl +:+
    (if (i mod 16 =? 0)%nat then nl else "") +:+
    print_report_loop (S i) rest
  end.

Definition print_report (report_id feature_size : Z) (buffer : list byte)
    : string :=
  "Feature Report ID " +:+ dec report_id +:+ " (" +:+ dec feature_size +:+
  " bytes):" +:+ nl +:+
  print_report_loop 1 (drop 1 buffer) +:+
  (if negb (((length buffer - 1) mod 16 =? 0)%nat) then nl else "").

Section main.
Variable os_HIDIOCGRDESCSIZE : Z -> ioctl_int_result.
Variable os_HIDIOCGRDESC : Z -> Z -> ioctl_result.
Variable ioctl_HIDIOCGFEATURE : Z -> list byte -> ioctl_result.

(** [feature_get(dev, report_id, output_path)] of [main.cpp].  The run
    never returns when [parse] does not return within [fuel], and is
    undefined when the size loop reads through a dangling pointer;
    otherwise it returns the log of system calls and either the exception
    thrown or the text printed. *)
Definition main_feature_get (fuel : nat) (dev : device) (report_id : Z)
    (output_path : option string) (calls : list syscall)
    : outcome (list syscall * (exception + string)) :=
  match report_desc os_HIDIOCGRDESCSIZE os_HIDIOCGRDESC dev calls with
  | (calls1, inl e) => Returns (calls1, inl e)
  | (calls1, inr desc) =>
    match parse fuel (to_bytes desc) with
    | None => NeverReturns
    | Some tree =>
      let field := find_by_report_id tree report_id in
      match feature_size_loop (root tree) field 0 with
      | None => Undefined
      | Some feature_size =>
        if feature_size =? 0 then
          Returns (calls1,
                   inl (runtime_error ("No feature report with ID " +:+
                                       dec report_id +:+ " found.")))
        else
          let buffer :=
            <[0%nat := z2b report_id]>
              (replicate (Z.to_nat (u64 (feature_size + 1))) x00) in
          let '(log, r) := feature_get ioctl_HIDIOCGFEATURE dev buffer [] in
          let calls2 :=
            (calls1 ++ ((fun c => sys_HIDIOCGFEATURE c.1 c.2) <$> log))%list in
          match r with
          | inl e => Returns (calls2, inl e)
          | inr buffer' =>
            match output_path with
            | None =>
              Returns (calls2,
                       inr (print_report report_id feature_size buffer'))
            | Some _ => Returns (calls2, inr ""%string)
            end
          end
      end
    end
  end.
End main.

(** ** Notions used in the properties of the command line tool *)

(** Every character of [s] is a digit in [base]. *)
Fixpoint all_digits (base : Z) (s : string) : bool :=
  match s with
  | EmptyString => true
  | String c s' =>
    match digit_of base c with
    | Some _ => all_digits base s'
    | None => false
    end
  end.

(** The number the digits [s] denote in [base], after [acc]. *)
Fixpoint digits_value (base : Z) (s : string) (acc : Z) : Z :=
  match s with
  | EmptyString => acc
  | String c s' => digits_value base s' (acc * base + default 0 (digit_of base c))
  end.

(** The bytes a field takes in a feature report: nothing when it is not
    a Feature field. *)
Definition feature_bytes (root : collection_node) (pf : field_ptr) : Z :=
  match get_field root pf with
  | Some f => match f_kind f with feature => field_size_bytes f | _ => 0 end
  | None => 0
  end.

(** The size of the feature report [k] of a tree: the bytes of the
    Feature fields of the tree with that Report ID. *)
Definition feature_report_size (t : report_descriptor_tree) (k : Z) : Z :=
  foldr Z.add 0 (feature_bytes (root t) <$> dfs_index_entry t k).

(** Report ID 7, Report Size 8, Report Count 4, Feature. *)
Definition feature_example : list byte :=
  [x85; x07; x75; x08; x95; x04; xb1; x02].

Definition feature_example_tree : report_descriptor_tree :=
  default tree_empty (parse 0 feature_example).


(** * Properties *)

Local Close Scope string_scope.

(** ** Bytes and the tokenizer *)

#[local] Arguments parse_item : simpl never.
#[local] Arguments step : simpl never.

Lemma b2z_range (b : byte) : 0 <= b2z b < 256.
Proof.
  unfold b2z. pose proof (Byte.to_N_bounded b). lia.
Qed.

Lemma read_data_length n i v p :
  (length (read_data n i v p).2 <= length p)%nat.
Proof.
  revert i v p. induction n as [|n IH]; intros i v [|b p]; simpl; try lia.
  specialize (IH (i + 1) (Z.lor v (u32 (Z.shiftl (b2z b) (8 * i)))) p). lia.
Qed.

(** Every call of [parse_item] on a non-empty input reads at least one
    byte. *)
Lemma parse_item_shrinks b p :
  (length (parse_item (b :: p)).2 <= length p)%nat.
Proof.
  unfold parse_item. destruct (is_long_item (b2z b)).
  - destruct p as [|ds [|tg p3]]; simpl; try lia.
    rewrite length_drop. lia.
  - cbv zeta.
    destruct (read_data _ 0 0 p) as [v p'] eqn:E. simpl.
    pose proof (read_data_length
      (Z.to_nat (if Z.land (b2z b) 3 =? 3 then 4 else Z.land (b2z b) 3)) 0 0 p) as H.
    rewrite E in H. exact H.
Qed.

Lemma parse_loop_steps n fuel st p :
  (length p <= n)%nat ->
  parse_loop n fuel st p = steps fuel st (tokenize n p).
Proof.
  revert st p. induction n as [|n IH]; intros st [|b p] Hn; simpl in *; try done; try lia.
  pose proof (parse_item_shrinks b p) as Hs.
  destruct (parse_item (b :: p)) as [it p'] eqn:E. simpl in *.
  destruct (step fuel st it) as [st'|]; [|done].
  apply IH. lia.
Qed.

Lemma tokenize_gas n m p :
  (length p <= n)%nat -> (length p <= m)%nat -> tokenize n p = tokenize m p.
Proof.
  revert m p. induction n as [|n IH]; intros [|m] [|b p] Hn Hm; simpl in *; try done; try lia.
  pose proof (parse_item_shrinks b p) as Hs.
  destruct (parse_item (b :: p)) as [it p'] eqn:E. simpl in *.
  f_equal. apply IH; lia.
Qed.

Lemma parse_steps fuel bytes :
  parse fuel bytes =
  (fun st => tree_of st bytes) <$> steps fuel parser_init (items_of bytes).
Proof.
  unfold parse, items_of. rewrite parse_loop_steps by lia.
  by destruct (steps _ _ _).
Qed.

Lemma steps_app fuel st its1 its2 :
  steps fuel st (its1 ++ its2) =
  match steps fuel st its1 with
  | Some st' => steps fuel st' its2
  | None => None
  end.
Proof.
  revert st. induction its1 as [|it its1 IH]; intros st; simpl; [done|].
  destruct (step fuel st it); [apply IH|done].
Qed.

(** ** Long items *)

Lemma is_long_item_xfe : is_long_item (b2z xfe) = true.
Proof. reflexivity. Qed.

Lemma parse_item_long (ds tg : byte) (p3 : list byte) :
  parse_item (xfe :: ds :: tg :: p3) =
  (Item 0xFF 3 0xFF 0, drop (Z.to_nat (b2z ds)) p3).
Proof. reflexivity. Qed.

(** C6, as the code has it: a Long Item whose data-size byte is D and
    whose D data bytes are all present is read as one Reserved item that
    covers 3 + D bytes (the prefix, the data-size byte, the tag byte and
    the D data bytes; 2 + D bytes after the prefix), and the next item
    starts right after them.  The 8-byte scenario tokenizes as one
    Reserved item covering 6 bytes and one Global Usage Page item, after
    which the usage page is 0x01. *)
Theorem long_item_consumes_3_plus_D (ds tg : byte) (payload rest : list byte) :
  length payload = Z.to_nat (b2z ds) ->
  parse_item (xfe :: ds :: tg :: payload ++ rest) = (Item 0xFF 3 0xFF 0, rest)
  /\ consumed (xfe :: ds :: tg :: payload ++ rest) = (3 + Z.to_nat (b2z ds))%nat
  /\ items_of long_item_example = [Item 0xFF 3 0xFF 0; Item 1 1 0 1]
  /\ consumed long_item_example = 6%nat
  /\ forall fuel, exists st,
       parse_loop (length long_item_example) fuel parser_init long_item_example = Some st
       /\ g_usage_page (g st) = 1.
Proof.
  intros Hlen.
  assert (Hp : parse_item (xfe :: ds :: tg :: payload ++ rest)
               = (Item 0xFF 3 0xFF 0, rest)).
  { rewrite parse_item_long, <- Hlen. by rewrite drop_app_length. }
  split; [exact Hp|]. split.
  { unfold consumed. rewrite Hp. simpl. rewrite length_app. lia. }
  split; [reflexivity|]. split; [reflexivity|].
  intros fuel. eexists. split; reflexivity.
Qed.

Lemma long_item_consumes_3_plus_D_witness :
  parse_item (xfe :: x03 :: xaa :: [x11; x22; x33] ++ [x05; x01])
  = (Item 0xFF 3 0xFF 0, [x05; x01]).
Proof.
  apply (long_item_consumes_3_plus_D x03 xaa [x11; x22; x33] [x05; x01]).
  reflexivity.
Defined.

(** C6, as stated, fails on its own example: with data-size D = 3 the
    item covers 6 bytes, not 2 + D = 5. *)
Lemma long_item_not_2_plus_D :
  consumed long_item_example <> (2 + Z.to_nat (b2z x03))%nat.
Proof. vm_compute. discriminate. Qed.

(** ** Truncated long item header *)

Lemma step_item_zero fuel st :
  step fuel st item_zero = Some (set_l st local_clear).
Proof. reflexivity. Qed.

(** C10: a Long Item prefix with fewer than two bytes after it yields the
    all-zero item (a Main item with tag 0, size 0, data 0) and reads
    nothing after the prefix; a single remaining byte is read as the
    prefix of the next item in the next iteration; the zero item clears
    the local state and changes nothing else. *)
Theorem truncated_long_item_header :
  parse_item [xfe] = (item_zero, [])
  /\ (forall b, parse_item [xfe; b] = (item_zero, [b]))
  /\ (it_type item_zero = 0 /\ it_tag item_zero = 0
      /\ it_size item_zero = 0 /\ it_data item_zero = 0)
  /\ (forall fuel st, step fuel st item_zero = Some (set_l st local_clear))
  /\ (forall n fuel st,
        parse_loop (S n) fuel st [xfe] = Some (set_l st local_clear))
  /\ (forall n fuel st b,
        parse_loop (S (S n)) fuel st [xfe; b]
        = parse_loop (S n) fuel (set_l st local_clear) [b]).
Proof.
  split; [reflexivity|].
  split; [intros b; reflexivity|].
  split; [repeat split|].
  split; [intros fuel st; apply step_item_zero|].
  split.
  - intros n fuel st. by destruct n.
  - intros n fuel st b. reflexivity.
Qed.

(** ** Stack underflow *)

Lemma step_global_type fuel st it :
  it_type it = 1 -> step fuel st it = Some (step_global st it).
Proof. intros H. unfold step. by rewrite H. Qed.

Lemma step_preserves_stack_bottom fuel st it st' :
  step fuel st it = Some st' ->
  last (stack st) = Some [] -> last (stack st') = Some [].
Proof.
  unfold step, step_main, step_global, step_local, set_l.
  intros H Hl.
  repeat (case_match; simplify_eq; simpl in *; try done).
  all: try (by rewrite last_cons, Hl).
  all: try (by rewrite last_cons in Hl).
Qed.

Lemma steps_stack_bottom fuel its : forall st st',
  steps fuel st its = Some st' ->
  last (stack st) = Some [] -> last (stack st') = Some [].
Proof.
  induction its as [|it its IH]; intros st st' H Hl; simpl in H.
  - by simplify_eq.
  - destruct (step fuel st it) as [st1|] eqn:E; [|done].
    eapply IH; [exact H|]. eapply step_preserves_stack_bottom; eauto.
Qed.

(** C8: a Pop consumed while the stack of saved global states is empty
    changes nothing; an End Collection consumed while only the root is on
    the collection stack leaves the stack and [current] at the root and
    only clears the local state; both yield a state, so the loop goes on;
    and after any prefix of any input the root is still at the bottom of
    the collection stack. *)
Theorem stack_underflow_absorbed (fuel : nat) (st : parser) (it : item) :
  (it_type it = 1 -> it_tag it = 0x0B -> gstack st = [] ->
     step fuel st it = Some st)
  /\ (it_type it = 0 -> it_tag it = 0x0C -> stack st = [[]] ->
     step fuel st it = Some (set_l st local_clear)
     /\ stack (set_l st local_clear) = [[]]
     /\ current (set_l st local_clear) = current st)
  /\ (forall its st', steps fuel parser_init its = Some st' ->
     last (stack st') = Some []).
Proof.
  split; [|split].
  - intros Ht Hg He. rewrite step_global_type by done.
    unfold step_global, eval_global. rewrite Hg, He.
    destruct st as [r i c s [] gs ls]; simpl in *. by subst.
  - intros Ht Hg Hs. unfold step, step_main. rewrite Ht, Hg, Hs. done.
  - intros its st' H. by eapply steps_stack_bottom.
Qed.

Lemma stack_underflow_absorbed_witness :
  step 0 parser_init (Item 0 1 0x0B 0) = Some parser_init
  /\ step 0 parser_init (Item 0 0 0x0C 0) = Some (set_l parser_init local_clear).
Proof.
  pose proof (stack_underflow_absorbed 0 parser_init (Item 0 1 0x0B 0)) as [H1 _].
  pose proof (stack_underflow_absorbed 0 parser_init (Item 0 0 0x0C 0)) as [_ [H2 _]].
  split.
  - apply H1; reflexivity.
  - apply H2; reflexivity.
Defined.

(** ** Push and Pop *)

Lemma step_global_mutation fuel st it :
  is_global_mutation it ->
  exists g', step fuel st it =
    Some (Parser (root_ st) (index_by_report_id_ st) (current st) (stack st)
            g' (gstack st) (l st)).
Proof.
  intros (Ht & Hpush & Hpop). rewrite step_global_type by done.
  unfold step_global, eval_global.
  apply Z.eqb_neq in Hpush, Hpop. rewrite Hpush, Hpop.
  destruct (g st). repeat case_match; simplify_eq; eauto.
Qed.

Lemma steps_global_mutations fuel its : forall st,
  Forall is_global_mutation its ->
  exists g', steps fuel st its =
    Some (Parser (root_ st) (index_by_report_id_ st) (current st) (stack st)
            g' (gstack st) (l st)).
Proof.
  induction its as [|it its IH]; intros st Hall.
  - exists (g st). by destruct st.
  - inversion Hall as [|? ? Hit Hits]; subst.
    destruct (step_global_mutation fuel st it Hit) as [g1 E1].
    simpl. rewrite E1.
    destruct (IH (Parser (root_ st) (index_by_report_id_ st) (current st)
                    (stack st) g1 (gstack st) (l st)) Hits) as [g2 E2].
    exists g2. exact E2.
Qed.

(** C7: Push, then any number of Global items that are neither Push nor
    Pop, then Pop: the evaluator yields a state whose global state (and
    stack of saved global states) is the one before the Push. *)
Theorem push_pop_symmetry (fuel : nat) (st : parser) (push pop : item)
    (its : list item) :
  it_type push = 1 -> it_tag push = 0x0A ->
  it_type pop = 1 -> it_tag pop = 0x0B ->
  Forall is_global_mutation its ->
  exists st', steps fuel st (push :: its ++ [pop]) = Some st'
    /\ g st' = g st /\ gstack st' = gstack st.
Proof.
  intros Hpt Hpg Hqt Hqg Hall.
  simpl. rewrite (step_global_type _ _ push) by done.
  set (st1 := step_global st push).
  assert (Hst1 : g st1 = g st /\ gstack st1 = g st :: gstack st).
  { unfold st1, step_global, eval_global. rewrite Hpg. by destruct (g st). }
  destruct Hst1 as [Hg1 Hs1].
  rewrite steps_app.
  destruct (steps_global_mutations fuel its st1 Hall) as [g2 E2].
  rewrite E2. simpl. rewrite (step_global_type _ _ pop) by done.
  eexists. split; [reflexivity|].
  unfold step_global, eval_global. simpl. rewrite Hqg, Hs1.
  by destruct g2.
Qed.

Lemma push_pop_symmetry_witness :
  exists st',
    steps 0 parser_init
      (Item 0 1 0x0A 0 :: [Item 1 1 0x00 9; Item 1 1 0x08 7] ++ [Item 0 1 0x0B 0])
    = Some st'
    /\ g st' = g parser_init /\ gstack st' = gstack parser_init.
Proof.
  apply (push_pop_symmetry 0 parser_init (Item 0 1 0x0A 0) (Item 0 1 0x0B 0)
           [Item 1 1 0x00 9; Item 1 1 0x08 7]); try reflexivity.
  repeat constructor; discriminate.
Defined.

(** ** The usage range loop *)

Lemma usage_range_cons u usage_max :
  u <= usage_max -> usage_range u usage_max = u :: usage_range (u + 1) usage_max.
Proof.
  intros H. unfold usage_range.
  replace (Z.to_nat (usage_max - u + 1)) with (S (Z.to_nat (usage_max - (u + 1) + 1))) by lia.
  cbn [seq fmap list_fmap]. f_equal; [lia|].
  rewrite <- seq_shift, <- list_fmap_compose.
  apply list_fmap_ext. intros _ i _. simpl. lia.
Qed.

Lemma usage_range_nil u usage_max :
  usage_max < u -> usage_range u usage_max = [].
Proof.
  intros H. unfold usage_range.
  by replace (Z.to_nat (usage_max - u + 1)) with O by lia.
Qed.

(** Below the top value the loop ends and yields the range. *)
Lemma usage_range_loop_ends fuel : forall u usage_max usages,
  0 <= u -> usage_max < 2 ^ 32 - 1 ->
  (Z.to_nat (usage_max - u + 1) < fuel)%nat ->
  usage_range_loop fuel u usage_max usages = Some (usages ++ usage_range u usage_max).
Proof.
  induction fuel as [|fuel IH]; intros u usage_max usages Hu Hmax Hfuel; [lia|].
  simpl. destruct (Z.leb_spec u usage_max) as [Hle|Hgt].
  - assert (Hw : u32 (u + 1) = u + 1).
    { unfold u32. apply Z.mod_small. lia. }
    rewrite Hw, IH by lia.
    rewrite (usage_range_cons u usage_max Hle), <- app_assoc. done.
  - by rewrite usage_range_nil, app_nil_r by done.
Qed.

(** With [usage_max = 0xFFFFFFFF] the condition [u <= usage_max] holds for
    every 32-bit [u]: the loop never ends. *)
Lemma usage_range_loop_wraps fuel : forall u usages,
  u <= 2 ^ 32 - 1 ->
  usage_range_loop fuel u (2 ^ 32 - 1) usages = None.
Proof.
  induction fuel as [|fuel IH]; intros u usages Hu; [done|].
  cbn [usage_range_loop].
  destruct (Z.leb_spec u (2 ^ 32 - 1)) as [_|Hgt]; [|lia].
  apply IH. unfold u32. pose proof (Z.mod_pos_bound (u + 1) (2 ^ 32)). lia.
Qed.

Lemma step_field_stuck fuel st it :
  is_field_item it = true ->
  field_usages fuel (l st) = None ->
  step fuel st it = None.
Proof.
  unfold is_field_item, step, step_main. intros Hit Hnone.
  destruct (it_type it =? 0); [|done].
  destruct (it_tag it =? 0x0A) eqn:E1; [lia|].
  destruct (it_tag it =? 0x0C) eqn:E2; [lia|].
  simpl in Hit. rewrite Hit. by rewrite Hnone.
Qed.

(** C2, at an input the code does not survive: Usage Maximum 0xFFFFFFFF
    followed by an Input item.  The range loop of the Input case is still
    running after any number of iterations, so [parse] returns no tree. *)
Theorem parse_full_usage_range_never_returns :
  forall fuel, parse fuel full_range_input = None.
Proof.
  intros fuel. rewrite parse_steps.
  change (items_of full_range_input)
    with [Item 4 2 2 (2 ^ 32 - 1); Item 1 0 8 0].
  cbn [steps].
  change (step fuel parser_init (Item 4 2 2 (2 ^ 32 - 1)))
    with (Some (set_l parser_init (LocalState [] true 0 (2 ^ 32 - 1)))).
  cbv iota beta.
  rewrite step_field_stuck; [done|done|].
  unfold field_usages. cbn [l set_l l_has_usage_minmax l_usage_min l_usage_max].
  by apply usage_range_loop_wraps.
Qed.

(** C4, at an input the code does not survive: Usage Minimum 0xFFFFFFFE,
    Usage Maximum 0xFFFFFFFF, then Input.  The inclusive range has the two
    elements 0xFFFFFFFE and 0xFFFFFFFF, but the loop wraps to 0 after the
    second and never ends: no Field is emitted and [parse] returns no
    tree. *)
Theorem usage_range_top_never_emitted :
  usage_range (2 ^ 32 - 2) (2 ^ 32 - 1) = [2 ^ 32 - 2; 2 ^ 32 - 1]
  /\ (forall fuel, field_usages fuel (LocalState [] true (2 ^ 32 - 2) (2 ^ 32 - 1)) = None)
  /\ (forall fuel, parse fuel top_range_input = None).
Proof.
  split; [reflexivity|]. split.
  - intros fuel. unfold field_usages. simpl. by apply usage_range_loop_wraps.
  - intros fuel. rewrite parse_steps.
    change (items_of top_range_input)
      with [Item 4 2 1 (2 ^ 32 - 2); Item 4 2 2 (2 ^ 32 - 1); Item 1 0 8 0].
    cbn [steps].
    change (step fuel parser_init (Item 4 2 1 (2 ^ 32 - 2)))
      with (Some (set_l parser_init (LocalState [] true (2 ^ 32 - 2) 0))).
    cbv iota beta.
    change (step fuel (set_l parser_init (LocalState [] true (2 ^ 32 - 2) 0))
              (Item 4 2 2 (2 ^ 32 - 1)))
      with (Some (set_l parser_init (LocalState [] true (2 ^ 32 - 2) (2 ^ 32 - 1)))).
    cbv iota beta.
    rewrite step_field_stuck; [done|done|].
    unfold field_usages. cbn [l set_l l_has_usage_minmax l_usage_min l_usage_max].
    by apply usage_range_loop_wraps.
Qed.

(** The usages of the field built at an Input/Output/Feature item: the
    accumulated list without the range flag; with it, the range, as soon
    as the loop is given enough iterations, unless [usage_max] is the top
    value. *)
Lemma field_usages_expansion (ls : local_state) :
  (l_has_usage_minmax ls = false ->
     forall fuel, field_usages fuel ls = Some (l_usages ls))
  /\ (l_has_usage_minmax ls = true ->
     0 <= l_usage_min ls -> l_usage_max ls < 2 ^ 32 - 1 ->
     forall fuel, (Z.to_nat (l_usage_max ls - l_usage_min ls + 1) < fuel)%nat ->
       field_usages fuel ls = Some (usage_range (l_usage_min ls) (l_usage_max ls))).
Proof.
  unfold field_usages. split.
  - intros -> fuel. case_bool_decide as E; simpl; [by rewrite E|done].
  - intros -> Hmin Hmax fuel Hfuel. by rewrite usage_range_loop_ends.
Qed.

(** ** Pointers into the tree *)

(** Induction on a collection tree. *)
Lemma collection_node_ind (P : collection_node -> Prop) :
  (forall t up u fs chs, Forall P chs -> P (CollectionNode t up u fs chs)) ->
  forall n, P n.
Proof.
  intros H. fix IH 1. intros [t up u fs chs]. apply H.
  induction chs as [|c chs IHchs]; constructor; [apply IH|apply IHchs].
Qed.

Lemma emplace_child_appends c : appends (emplace_child c).
Proof. intros n. split; [done|]. by apply prefix_app_r. Qed.

Lemma emplace_field_appends f : appends (emplace_field f).
Proof. intros n. split; [|done]. by apply prefix_app_r. Qed.

Lemma get_node_app q r : forall root,
  get_node root (q ++ r) = get_node root q ≫= fun n => get_node n r.
Proof.
  induction q as [|i q IH]; intros root; simpl; [done|].
  destruct (c_children root !! i); [apply IH|done].
Qed.

Lemma get_node_update_same h q : forall root n,
  get_node root q = Some n ->
  get_node (update_node h root q) q = Some (h n).
Proof.
  induction q as [|i q IH]; intros root n Hq; simpl in *.
  - by simplify_eq.
  - destruct (c_children root !! i) as [c|] eqn:Hc; [|done]. simpl.
    rewrite list_lookup_insert_eq by (by eapply lookup_lt_Some).
    by apply IH.
Qed.

(** Nodes stay where they are, and keep the fields they have, when a node
    of the tree gets a new field or child. *)
Lemma get_node_update h q : appends h -> forall root p n,
  get_node root p = Some n ->
  exists n', get_node (update_node h root q) p = Some n'
    /\ c_fields n `prefix_of` c_fields n'.
Proof.
  intros Hh. induction q as [|k q IH]; intros root p n Hp.
  - destruct p as [|j p]; simpl in *.
    + simplify_eq. exists (h n). split; [done|]. apply Hh.
    + destruct (c_children root !! j) as [c|] eqn:Hc; [|done].
      exists n. split; [|done].
      by rewrite (prefix_lookup_Some _ _ _ _ Hc (proj2 (Hh root))).
  - simpl. destruct (c_children root !! k) as [c|] eqn:Hc; [|by exists n].
    destruct p as [|j p]; simpl in *.
    + simplify_eq. by eexists.
    + destruct (decide (j = k)) as [->|Hne].
      * rewrite Hc in Hp.
        rewrite list_lookup_insert_eq by (by eapply lookup_lt_Some).
        by apply IH.
      * rewrite list_lookup_insert_ne by done.
        destruct (c_children root !! j); [|done]. by exists n.
Qed.

Lemma get_field_update h q root pf f : appends h ->
  get_field root pf = Some f ->
  get_field (update_node h root q) pf = Some f.
Proof.
  intros Hh. unfold get_field.
  destruct (get_node root pf.1) as [n|] eqn:Hn; [|done]. intros Hf.
  destruct (get_node_update h q Hh root pf.1 n Hn) as (n' & -> & Hpre).
  by eapply prefix_lookup_Some.
Qed.

Lemma get_field_emplace f root q n :
  get_node root q = Some n ->
  get_field (update_node (emplace_field f) root q) (q, length (c_fields n)) = Some f.
Proof.
  intros Hq. unfold get_field. simpl.
  rewrite (get_node_update_same _ _ _ _ Hq). simpl.
  by rewrite list_lookup_middle.
Qed.

(** The pointer to the field just appended to the node at [q]. *)
Lemma back_ptr_emplace f root q n :
  get_node root q = Some n ->
  back_ptr (update_node (emplace_field f) root q) q
  = ptr_taken_at (q, length (c_fields n)).
Proof.
  intros Hq. unfold back_ptr, ptr_taken_at.
  rewrite (get_node_update_same _ _ _ _ Hq). simpl.
  rewrite length_app. simpl.
  replace (length (c_fields n) + 1)%nat with (S (length (c_fields n))) by lia.
  f_equal. lia.
Qed.

(** ** What one step does to the tree and the index *)

Lemma step_effect fuel st it st' :
  step fuel st it = Some st' ->
  (is_field_item it = false
   /\ root_ st' = root_ st
   /\ index_by_report_id_ st' = index_by_report_id_ st
   /\ (current st' :: stack st' = current st :: stack st
       \/ exists c0 rest, stack st = c0 :: current st' :: rest
                          /\ stack st' = current st' :: rest))
  \/ (is_field_item it = false
   /\ (exists node, c_fields node = [] /\ c_children node = []
        /\ root_ st' = update_node (emplace_child node) (root_ st) (current st))
   /\ index_by_report_id_ st' = index_by_report_id_ st
   /\ current st' = current st ++ [length (c_children (current_node st))]
   /\ stack st' = current st' :: stack st)
  \/ (is_field_item it = true
   /\ (exists kind usages, field_usages fuel (l st) = Some usages
        /\ root_ st' = update_node
             (emplace_field (make_field kind (it_data it) (g st) usages))
             (root_ st) (current st))
   /\ index_by_report_id_ st' =
        index_push (g_report_id (g st)) (back_ptr (root_ st') (current st))
          (index_by_report_id_ st)
   /\ current st' = current st /\ stack st' = stack st /\ g st' = g st).
Proof.
  unfold step, is_field_item. intros H.
  destruct (it_type it =? 0) eqn:Et; simpl.
  - unfold step_main in H.
    destruct (it_tag it =? 0x0A) eqn:E1.
    { simplify_eq. right; left. simpl.
      assert ((it_tag it =? 8) = false) as -> by lia.
      assert ((it_tag it =? 9) = false) as -> by lia.
      assert ((it_tag it =? 11) = false) as -> by lia.
      split; [done|]. split; [by eexists (CollectionNode _ _ _ [] [])|]. done. }
    destruct (it_tag it =? 0x0C) eqn:E2.
    { assert ((it_tag it =? 8) = false) as -> by lia.
      assert ((it_tag it =? 9) = false) as -> by lia.
      assert ((it_tag it =? 11) = false) as -> by lia.
      left. destruct (stack st) as [|c0 [|top rest]] eqn:Es; simplify_eq; simpl;
        rewrite ?Es; split_and!; try done; try (by left).
      right. by exists c0, rest. }
    destruct ((it_tag it =? 8) || (it_tag it =? 9) || (it_tag it =? 11)) eqn:E3.
    + destruct (field_usages fuel (l st)) as [us|] eqn:Eu; [|done].
      simplify_eq. right; right. simpl.
      split; [done|]. split; [by eexists _, us|]. done.
    + simplify_eq. left. simpl. split_and!; try done. by left.
  - left. split; [done|].
    destruct (it_type it =? 1).
    + simplify_eq. unfold step_global. destruct (eval_global _ _ _). simpl.
      split_and!; try done. by left.
    + destruct (it_type it =? 2); simplify_eq.
      * unfold step_local, set_l. repeat case_match; simpl; split_and!; try done; by left.
      * split_and!; try done. by left.
Qed.

Lemma step_valid_ptrs fuel st it st' :
  step fuel st it = Some st' -> valid_ptrs st -> valid_ptrs st'.
Proof.
  intros H [Hc Hs]. unfold valid_ptrs.
  destruct (step_effect _ _ _ _ H)
    as [(_ & -> & _ & Hst)|[(_ & (node & _ & _ & ->) & _ & Hcur & Hst)
       |(_ & (k & us & _ & ->) & _ & -> & -> & _)]].
  - destruct Hst as [Heq|(c0 & rest & Hs0 & ->)].
    + by injection Heq as -> ->.
    + rewrite Hs0 in Hs. inversion Hs as [|? ? _ Hs']; subst.
      split; [|done]. by inversion Hs'.
  - destruct Hc as [n Hn].
    assert (Hcur' : is_Some (get_node
              (update_node (emplace_child node) (root_ st) (current st)) (current st'))).
    { rewrite Hcur, get_node_app, (get_node_update_same _ _ _ _ Hn). simpl.
      unfold current_node. rewrite Hn. simpl.
      by rewrite list_lookup_middle. }
    split; [done|]. rewrite Hst. constructor; [done|].
    eapply Forall_impl; [exact Hs|]. intros p [m Hm].
    destruct (get_node_update _ (current st) (emplace_child_appends node) _ _ _ Hm)
      as (m' & -> & _). done.
  - split.
    + destruct Hc as [m Hm].
      destruct (get_node_update _ (current st) (emplace_field_appends
                  (make_field k (it_data it) (g st) us)) _ _ _ Hm) as (m' & -> & _). done.
    + eapply Forall_impl; [exact Hs|]. intros p [m Hm].
      destruct (get_node_update _ (current st) (emplace_field_appends
                  (make_field k (it_data it) (g st) us)) _ _ _ Hm) as (m' & -> & _). done.
Qed.

Lemma parser_init_valid_ptrs : valid_ptrs parser_init.
Proof. split; [by eexists|]. constructor; [by eexists|constructor]. Qed.

Lemma steps_valid_ptrs fuel its : forall st st',
  steps fuel st its = Some st' -> valid_ptrs st -> valid_ptrs st'.
Proof.
  induction its as [|it its IH]; intros st st' H Hv; simpl in H.
  - by simplify_eq.
  - destruct (step fuel st it) as [st1|] eqn:E; [|done].
    eapply IH; [exact H|]. by eapply step_valid_ptrs.
Qed.

(** A field of the tree stays what and where it is in every later state. *)
Lemma step_get_field fuel st it st' pf f :
  step fuel st it = Some st' ->
  get_field (root_ st) pf = Some f -> get_field (root_ st') pf = Some f.
Proof.
  intros H Hf.
  destruct (step_effect _ _ _ _ H)
    as [(_ & -> & _)|[(_ & (node & _ & _ & ->) & _)|(_ & (k & us & _ & ->) & _)]].
  - done.
  - by apply get_field_update; [apply emplace_child_appends|].
  - by apply get_field_update; [apply emplace_field_appends|].
Qed.

Lemma steps_get_field fuel its : forall st st' pf f,
  steps fuel st its = Some st' ->
  get_field (root_ st) pf = Some f -> get_field (root_ st') pf = Some f.
Proof.
  induction its as [|it its IH]; intros st st' pf f H Hf; simpl in H.
  - by simplify_eq.
  - destruct (step fuel st it) as [st1|] eqn:E; [|done].
    eapply IH; [exact H|]. by eapply step_get_field.
Qed.

(** ** When [parse] returns *)

Lemma lor_range a b n :
  0 <= a < 2 ^ n -> 0 <= b < 2 ^ n -> 0 <= Z.lor a b < 2 ^ n.
Proof.
  intros Ha Hb. split; [apply Z.lor_nonneg; lia|].
  destruct (Z.eq_dec (Z.lor a b) 0) as [->|Hne]; [lia|].
  assert (0 <= Z.lor a b) by (apply Z.lor_nonneg; lia).
  assert (Hn : 0 < n).
  { destruct (Z.lt_trichotomy n 0) as [Hlt|[->|Hgt]]; [|exfalso|done].
    - rewrite Z.pow_neg_r in Ha by done. lia.
    - assert (a = 0) as -> by lia. assert (b = 0) as -> by lia. done. }
  apply Z.log2_lt_pow2; [lia|].
  rewrite Z.log2_lor by lia.
  apply Z.max_lub_lt.
  - destruct (Z.eq_dec a 0) as [->|?]; [done|]. apply Z.log2_lt_pow2; lia.
  - destruct (Z.eq_dec b 0) as [->|?]; [done|]. apply Z.log2_lt_pow2; lia.
Qed.

Lemma read_data_range n : forall i v p,
  0 <= v < 2 ^ 32 -> 0 <= (read_data n i v p).1 < 2 ^ 32.
Proof.
  induction n as [|n IH]; intros i v [|b p] Hv; simpl; try done.
  apply IH, lor_range; [done|].
  unfold u32. apply Z.mod_pos_bound. lia.
Qed.

(** The data word of every item is a 32-bit value. *)
Lemma parse_item_data_range p : 0 <= it_data (parse_item p).1 < 2 ^ 32.
Proof.
  unfold parse_item. destruct p as [|b p]; [simpl; lia|].
  destruct (is_long_item (b2z b)).
  - destruct p as [|ds [|tg p3]]; simpl; lia.
  - cbv zeta.
    pose proof (read_data_range
      (Z.to_nat (if Z.land (b2z b) 3 =? 3 then 4 else Z.land (b2z b) 3)) 0 0 p) as H.
    destruct (read_data _ 0 0 p) as [v p'] eqn:E. simpl in *. apply H. lia.
Qed.

Lemma tokenize_data_range n : forall p,
  Forall (fun it => 0 <= it_data it < 2 ^ 32) (tokenize n p).
Proof.
  induction n as [|n IH]; intros [|b p]; simpl; try constructor.
  pose proof (parse_item_data_range (b :: p)) as H.
  destruct (parse_item (b :: p)) as [it p'] eqn:E.
  constructor; [exact H|apply IH].
Qed.

Lemma range_fuel_spec : Z.of_nat range_fuel = 2 ^ 32.
Proof. unfold range_fuel. apply Z2Nat.id. by apply Z.pow_nonneg. Qed.

Lemma step_returns fuel st it :
  (range_fuel <= fuel)%nat -> usage_range_ends (l st) ->
  is_Some (step fuel st it).
Proof.
  intros Hfuel [Hmin Hmax]. unfold step.
  destruct (it_type it =? 0); [|repeat case_match; done].
  unfold step_main.
  repeat (case_match; try done).
  exfalso.
  match goal with H : field_usages _ _ = None |- _ => revert H end.
  unfold field_usages. destruct (l_has_usage_minmax (l st)); [|by case_match].
  rewrite usage_range_loop_ends; [done|done|done|].
  pose proof range_fuel_spec. lia.
Qed.

Lemma step_usage_range_ends fuel st it st' :
  step fuel st it = Some st' ->
  0 <= it_data it < 2 ^ 32 -> is_full_usage_max it = false ->
  usage_range_ends (l st) -> usage_range_ends (l st').
Proof.
  unfold step, is_full_usage_max, usage_range_ends.
  intros Hstep Hdata Hfull [Hmin Hmax].
  destruct (it_type it =? 0) eqn:E0.
  { unfold step_main in Hstep.
    repeat (case_match; simplify_eq; simpl; try done). }
  destruct (it_type it =? 1) eqn:E1.
  { simplify_eq. unfold step_global. by destruct (eval_global _ _ _). }
  destruct (it_type it =? 2) eqn:E2; [|by simplify_eq].
  simplify_eq. unfold step_local.
  destruct (it_tag it =? 0) eqn:T0; [done|].
  destruct (it_tag it =? 1) eqn:T1; [simpl; lia|].
  destruct (it_tag it =? 2) eqn:T2; [|done].
  simpl in *. lia.
Qed.

Lemma steps_returns fuel its : forall st,
  (range_fuel <= fuel)%nat ->
  Forall (fun it => 0 <= it_data it < 2 ^ 32) its ->
  Forall (fun it => is_full_usage_max it = false) its ->
  usage_range_ends (l st) ->
  is_Some (steps fuel st its).
Proof.
  induction its as [|it its IH]; intros st Hfuel Hdata Hfull Hl; simpl; [done|].
  inversion Hdata; inversion Hfull; subst.
  destruct (step_returns fuel st it Hfuel Hl) as [st' Hst']. rewrite Hst'.
  apply IH; try done. by eapply step_usage_range_ends.
Qed.

(** [parse] returns a tree for every input that has no Usage Maximum item
    with the value 0xFFFFFFFF, once the range loops are given 2^32
    iterations. *)
Lemma parse_returns fuel bytes :
  (range_fuel <= fuel)%nat ->
  Forall (fun it => is_full_usage_max it = false) (items_of bytes) ->
  is_Some (parse fuel bytes).
Proof.
  intros Hfuel Hfull. rewrite parse_steps.
  destruct (steps_returns fuel (items_of bytes) parser_init Hfuel) as [st Hst].
  - apply tokenize_data_range.
  - done.
  - split; simpl; lia.
  - rewrite Hst. by eexists.
Qed.

(** More iterations do not change a result. *)
Lemma usage_range_loop_mono fuel : forall fuel' u usage_max usages r,
  (fuel <= fuel')%nat ->
  usage_range_loop fuel u usage_max usages = Some r ->
  usage_range_loop fuel' u usage_max usages = Some r.
Proof.
  induction fuel as [|fuel IH]; intros [|fuel'] u m us r Hle H; simpl in *;
    try done; try lia.
  destruct (u <=? m); [|done]. eapply IH; [|exact H]. lia.
Qed.

(** ** State locality *)

(** C5: for every input and every Input/Output/Feature item of it that
    the evaluator gets past, the Field produced at that item, a new field
    of the tree, has the report_id, usage_page, report_size_bits,
    report_count, logical and physical minimum and maximum, unit and
    unit_exponent of the global state immediately before the item; it is
    a copy: whatever items follow, the field stays what and where it is,
    in particular in the tree [parse] returns. *)
Theorem state_locality (fuel : nat) (bytes : list byte)
    (its1 : list item) (it : item) (its2 : list item) (st1 : parser) :
  items_of bytes = its1 ++ it :: its2 ->
  is_field_item it = true ->
  steps fuel parser_init (its1 ++ [it]) = Some st1 ->
  exists st f,
    steps fuel parser_init its1 = Some st
    /\ step fuel st it = Some st1
    /\ get_field (root_ st) (next_field_ptr st) = None
    /\ get_field (root_ st1) (next_field_ptr st) = Some f
    /\ (f_report_id f = g_report_id (g st)
        /\ f_usage_page f = g_usage_page (g st)
        /\ f_report_size_bits f = g_report_size_bits (g st)
        /\ f_report_count f = g_report_count (g st)
        /\ f_logical_min f = g_logical_min (g st)
        /\ f_logical_max f = g_logical_max (g st)
        /\ f_physical_min f = g_physical_min (g st)
        /\ f_physical_max f = g_physical_max (g st)
        /\ f_unit f = g_unit (g st)
        /\ f_unit_exponent f = g_unit_exponent (g st))
    /\ (forall its' st', steps fuel st1 its' = Some st' ->
          get_field (root_ st') (next_field_ptr st) = Some f)
    /\ (forall t, parse fuel bytes = Some t ->
          get_field (root t) (next_field_ptr st) = Some f).
Proof.
  intros Hits Hit Hst1. rewrite steps_app in Hst1.
  destruct (steps fuel parser_init its1) as [st|] eqn:H1; [|done].
  simpl in Hst1. destruct (step fuel st it) as [st1'|] eqn:Hstep; [|done].
  simplify_eq.
  pose proof (steps_valid_ptrs _ _ _ _ H1 parser_init_valid_ptrs) as [[n Hn] _].
  destruct (step_effect _ _ _ _ Hstep)
    as [(Hf & _)|[(Hf & _)|(_ & (kind & us & _ & Hroot) & _)]];
    [congruence|congruence|].
  exists st, (make_field kind (it_data it) (g st) us).
  assert (Hptr : next_field_ptr st = (current st, length (c_fields n))).
  { unfold next_field_ptr, current_node. by rewrite Hn. }
  assert (Hnew : get_field (root_ st1) (next_field_ptr st)
                 = Some (make_field kind (it_data it) (g st) us)).
  { rewrite Hroot, Hptr. by apply get_field_emplace. }
  split_and!; try done.
  - rewrite Hptr. unfold get_field. simpl. rewrite Hn.
    by apply lookup_ge_None.
  - intros its' st' H'. by eapply steps_get_field.
  - intros t. rewrite parse_steps, Hits.
    change (its1 ++ it :: its2) with (its1 ++ [it] ++ its2).
    rewrite app_assoc, steps_app, steps_app, H1. simpl. rewrite Hstep.
    destruct (steps fuel st1 its2) as [stf|] eqn:H2; [|done].
    simpl. intros ?; simplify_eq. simpl.
    by eapply steps_get_field.
Qed.

Lemma state_locality_witness :
  exists st f,
    steps 0 parser_init [Item 1 1 0 9; Item 1 1 8 7] = Some st
    /\ get_field (root state_locality_tree) (next_field_ptr st) = Some f
    /\ f_report_id f = g_report_id (g st)
    /\ f_usage_page f = g_usage_page (g st).
Proof.
  destruct (state_locality 0 state_locality_example
              [Item 1 1 0 9; Item 1 1 8 7] (Item 1 0 8 2) [Item 1 1 0 1]
              (default parser_init
                 (steps 0 parser_init [Item 1 1 0 9; Item 1 1 8 7; Item 1 0 8 2])))
    as (st & f & H1 & _ & _ & _ & (H3 & H4 & _) & _ & H2).
  - reflexivity.
  - reflexivity.
  - reflexivity.
  - exists st, f. repeat split; try assumption.
    apply H2. reflexivity.
Defined.

(** ** The Report-ID index *)

Lemma children_field_ptrs_app dfs l1 : forall j l2,
  children_field_ptrs dfs j (l1 ++ l2) =
  children_field_ptrs dfs j l1 ++ children_field_ptrs dfs (j + length l1) l2.
Proof.
  induction l1 as [|c l1 IH]; intros j l2; simpl.
  - by rewrite Nat.add_0_r.
  - rewrite IH, <- app_assoc. do 3 f_equal. lia.
Qed.

Lemma dfs_field_ptrs_unfold n :
  dfs_field_ptrs n =
  ((fun i => ([], i)) <$> seq 0 (length (c_fields n))) ++
  children_field_ptrs dfs_field_ptrs 0 (c_children n).
Proof. by destruct n. Qed.

Lemma dfs_field_ptrs_leaf n :
  c_fields n = [] -> c_children n = [] -> dfs_field_ptrs n = [].
Proof. rewrite dfs_field_ptrs_unfold. by intros -> ->. Qed.

Lemma dfs_emplace_field f n :
  dfs_field_ptrs (emplace_field f n) ≡ₚ
  dfs_field_ptrs n ++ [([], length (c_fields n))].
Proof.
  rewrite !dfs_field_ptrs_unfold. simpl.
  rewrite length_app. simpl. rewrite seq_app, fmap_app. simpl.
  rewrite <- !app_assoc. apply Permutation_app_head, Permutation_app_comm.
Qed.

Lemma dfs_emplace_child c n :
  c_fields c = [] -> c_children c = [] ->
  dfs_field_ptrs (emplace_child c n) = dfs_field_ptrs n ++ [].
Proof.
  intros Hf Hc. rewrite !dfs_field_ptrs_unfold. simpl.
  rewrite children_field_ptrs_app. simpl.
  by rewrite (dfs_field_ptrs_leaf c Hf Hc), !app_nil_r.
Qed.

(** The fields of the tree after an update of the node at [q] that adds
    the fields [extra] to that node. *)
Lemma dfs_update_node h q : forall root n extra,
  get_node root q = Some n ->
  dfs_field_ptrs (h n) ≡ₚ dfs_field_ptrs n ++ extra ->
  dfs_field_ptrs (update_node h root q) ≡ₚ
  dfs_field_ptrs root ++ (prepend_ptr q <$> extra).
Proof.
  induction q as [|k q IH]; intros root n extra Hq Hh; simpl in *.
  - simplify_eq. rewrite Hh. apply Permutation_app_head.
    rewrite <- (list_fmap_id extra) at 1.
    apply Permutation_refl', list_fmap_ext. by intros _ [p i] _.
  - destruct (c_children root !! k) as [c|] eqn:Hc; [|done].
    specialize (IH c n extra Hq Hh).
    rewrite !dfs_field_ptrs_unfold. simpl.
    rewrite insert_take_drop by (by eapply lookup_lt_Some).
    pose proof (take_drop_middle _ _ _ Hc) as Hsplit.
    assert (Hlen : length (take k (c_children root)) = k).
    { apply length_take_le, Nat.lt_le_incl. by eapply lookup_lt_Some. }
    set (l1 := take k (c_children root)) in *.
    set (l2 := drop (S k) (c_children root)) in *.
    rewrite <- Hsplit, !children_field_ptrs_app. simpl.
    rewrite IH, fmap_app, <- list_fmap_compose, Hlen.
    rewrite <- !app_assoc.
    do 3 apply Permutation_app_head.
    apply Permutation_app_comm.
Qed.

Lemma with_report_id_app root k l1 l2 :
  with_report_id root k (l1 ++ l2) =
  with_report_id root k l1 ++ with_report_id root k l2.
Proof. apply filter_app. Qed.

(** Fields that stay what they are have the report id they had. *)
Lemma with_report_id_stable root root' k ptrs :
  (forall pf f, get_field root pf = Some f -> get_field root' pf = Some f) ->
  Forall (fun pf => is_Some (get_field root pf)) ptrs ->
  with_report_id root' k ptrs = with_report_id root k ptrs.
Proof.
  intros Hst. unfold with_report_id.
  induction 1 as [|pf ptrs [f Hf] _ IH]; [done|].
  rewrite !filter_cons, IH, (Hst _ _ Hf), Hf. done.
Qed.

Lemma step_index_consistent fuel st it st' ptrs :
  step fuel st it = Some st' ->
  valid_ptrs st ->
  index_consistent st ptrs ->
  index_consistent st'
    (ptrs ++ if is_field_item it then [next_field_ptr st] else []).
Proof.
  intros Hstep [[n Hn] _] (Hidx & Hval & Hperm).
  pose proof (fun pf f => step_get_field _ _ _ _ pf f Hstep) as Hkeep.
  assert (Hval' : Forall (fun pf => is_Some (get_field (root_ st') pf)) ptrs).
  { eapply Forall_impl; [exact Hval|]. intros pf [f Hf].
    exists f. by apply Hkeep. }
  unfold index_consistent.
  destruct (step_effect _ _ _ _ Hstep)
    as [(-> & Hroot & -> & _)|[(-> & (node & Hnf & Hnc & Hroot) & -> & _)
       |(-> & (kind & us & _ & Hroot) & -> & _)]].
  - rewrite app_nil_r. rewrite Hroot in *. done.
  - rewrite app_nil_r. split_and!; [|done|].
    + intros k. rewrite Hidx. f_equal. symmetry.
      by apply with_report_id_stable.
    + rewrite Hroot, Hperm.
      rewrite (dfs_update_node _ _ _ n [] Hn); [by rewrite app_nil_r|].
      by rewrite dfs_emplace_child.
  - set (f := make_field kind (it_data it) (g st) us) in *.
    assert (Hptr : next_field_ptr st = (current st, length (c_fields n))).
    { unfold next_field_ptr, current_node. by rewrite Hn. }
    assert (Hnew : get_field (root_ st') (next_field_ptr st) = Some f).
    { rewrite Hroot, Hptr. by apply get_field_emplace. }
    split_and!.
    + intros k. rewrite with_report_id_app, fmap_app.
      rewrite (with_report_id_stable (root_ st) (root_ st') k ptrs Hkeep Hval).
      rewrite Hroot, (back_ptr_emplace _ _ _ _ Hn), <- Hptr, <- Hroot.
      unfold index_push, with_report_id at 2.
      rewrite filter_cons, filter_nil, Hnew. simpl.
      destruct (decide (g_report_id (g st) = k)) as [->|Hne].
      * rewrite lookup_insert_eq. simpl. rewrite Hidx.
        by rewrite decide_True.
      * rewrite lookup_insert_ne by done. rewrite Hidx.
        rewrite decide_False by congruence. by rewrite app_nil_r.
    + apply Forall_app. split; [done|]. constructor; [by eexists|constructor].
    + rewrite Hroot, Hperm.
      rewrite (dfs_update_node _ _ _ n [([], length (c_fields n))] Hn
                 (dfs_emplace_field f n)).
      simpl. unfold prepend_ptr. simpl. by rewrite app_nil_r, Hptr.
Qed.

Lemma steps_index_consistent fuel its : forall st st' ptrs,
  steps fuel st its = Some st' ->
  valid_ptrs st ->
  index_consistent st ptrs ->
  index_consistent st' (ptrs ++ emitted_ptrs fuel st its).
Proof.
  induction its as [|it its IH]; intros st st' ptrs H Hv Hc; simpl in *.
  - simplify_eq. by rewrite app_nil_r.
  - destruct (step fuel st it) as [st1|] eqn:E; [|done].
    rewrite app_assoc. eapply IH; [exact H| |].
    + by eapply step_valid_ptrs.
    + by eapply step_index_consistent.
Qed.

Lemma parser_init_index_consistent : index_consistent parser_init [].
Proof. split_and!; [done|constructor|done]. Qed.

(** The depth-first listing has every field of the tree, each once. *)

Lemma elem_of_children_field_ptrs dfs chs : forall j0 q i,
  (q, i) ∈ children_field_ptrs dfs j0 chs <->
  exists j c p, chs !! j = Some c /\ q = (j0 + j)%nat :: p /\ (p, i) ∈ dfs c.
Proof.
  induction chs as [|c0 chs IH]; intros j0 q i; simpl.
  - split; [by intros ?%elem_of_nil|]. by intros (j & c & p & ? & _).
  - rewrite elem_of_app, IH, list_elem_of_fmap. split.
    + intros [([p i'] & Heq & Hin)|(j & c & p & Hj & -> & Hin)].
      * simpl in Heq. simplify_eq. exists O, c0, p. by rewrite Nat.add_0_r.
      * exists (S j), c, p. split; [done|]. split; [f_equal; lia|done].
    + intros ([|j] & c & p & Hj & -> & Hin); simpl in Hj.
      * left. simplify_eq. exists (p, i). by rewrite Nat.add_0_r.
      * right. exists j, c, p. split; [done|]. split; [f_equal; lia|done].
Qed.

Lemma elem_of_dfs_field_ptrs p : forall root i,
  (p, i) ∈ dfs_field_ptrs root <-> is_Some (get_field root (p, i)).
Proof.
  induction p as [|j p IH]; intros root i;
    rewrite dfs_field_ptrs_unfold, elem_of_app, elem_of_children_field_ptrs,
      list_elem_of_fmap;
    unfold get_field; simpl.
  - rewrite lookup_lt_is_Some. split.
    + intros [(i' & Heq & Hin)|(j & c & q & _ & Heq & _)]; [|done].
      simplify_eq. apply elem_of_seq in Hin. lia.
    + intros Hi. left. exists i. split; [done|]. apply elem_of_seq. lia.
  - split.
    + intros [(i' & Heq & _)|(j' & c & q & Hj & Heq & Hin)]; [done|].
      simplify_eq. rewrite Hj. by apply IH in Hin.
    + intros Hs. right.
      destruct (c_children root !! j) as [c|] eqn:Hc; [|by destruct Hs].
      exists j, c, p. split; [done|]. split; [done|]. by apply IH.
Qed.

Lemma NoDup_children_field_ptrs dfs chs : forall j0,
  Forall (fun c => NoDup (dfs c)) chs ->
  NoDup (children_field_ptrs dfs j0 chs).
Proof.
  induction chs as [|c chs IH]; intros j0 Hall; simpl; [constructor|].
  inversion Hall as [|? ? Hc Hchs]; subst.
  apply NoDup_app. split_and!.
  - apply NoDup_fmap_2_strong; [|done]. by intros [p i] [p' i'] _ _ [= -> ->].
  - intros [q i] ([p i'] & Heq & _)%list_elem_of_fmap
      (j & c' & p' & _ & Hq & _)%elem_of_children_field_ptrs.
    simpl in Heq. simplify_eq. lia.
  - by apply IH.
Qed.

Lemma NoDup_dfs_field_ptrs root : NoDup (dfs_field_ptrs root).
Proof.
  induction root as [t up u fs chs IH] using collection_node_ind.
  rewrite dfs_field_ptrs_unfold. simpl.
  apply NoDup_app. split_and!.
  - apply NoDup_fmap_2_strong; [|apply NoDup_seq]. by intros i i' _ _ [= ->].
  - intros [q i] (i' & Heq & _)%list_elem_of_fmap
      (j & c & p & _ & Hq & _)%elem_of_children_field_ptrs.
    by simplify_eq.
  - by apply NoDup_children_field_ptrs.
Qed.

(** The index entry for a Report ID after [parse] returns: the pointers
    taken at the fields of the tree with that id, in the order in which
    their Input/Output/Feature items occur in the byte stream. *)
Lemma find_by_report_id_taken fuel bytes t k :
  parse fuel bytes = Some t ->
  find_by_report_id t k
  = ptr_taken_at <$>
      with_report_id (root t) k (emitted_ptrs fuel parser_init (items_of bytes)).
Proof.
  rewrite parse_steps. intros Hp.
  destruct (steps fuel parser_init (items_of bytes)) as [stf|] eqn:E; [|done].
  simpl in Hp. simplify_eq.
  destruct (steps_index_consistent _ _ _ _ [] E parser_init_valid_ptrs
              parser_init_index_consistent) as (Hidx & _ & _).
  simpl in *. rewrite <- Hidx. unfold find_by_report_id. simpl.
  by destruct (index_by_report_id_ stf !! k).
Qed.

(** The places at which the pointers of an index entry were taken are
    the fields of the tree with that Report ID, each once. *)
Lemma find_by_report_id_places fuel bytes t k :
  parse fuel bytes = Some t ->
  place <$> find_by_report_id t k ≡ₚ dfs_index_entry t k.
Proof.
  intros Hp. rewrite (find_by_report_id_taken _ _ _ _ Hp).
  revert Hp. rewrite parse_steps. intros Hp.
  destruct (steps fuel parser_init (items_of bytes)) as [stf|] eqn:E; [|done].
  simpl in Hp. simplify_eq.
  destruct (steps_index_consistent _ _ _ _ [] E parser_init_valid_ptrs
              parser_init_index_consistent) as (_ & _ & Hperm).
  simpl in *. rewrite <- list_fmap_compose.
  rewrite (list_fmap_ext (place ∘ ptr_taken_at) id
             (with_report_id (root_ stf) k
                (emitted_ptrs fuel parser_init (items_of bytes)))
             ltac:(by intros i [q j] _)).
  rewrite list_fmap_id. unfold dfs_index_entry, with_report_id. simpl.
  by rewrite Hperm.
Qed.

(** A pointer that can be read yields the field at its place. *)
Lemma deref_get_field root pf f :
  deref root pf = Some f -> get_field root (place pf) = Some f.
Proof.
  unfold deref, get_field, place. simpl.
  destruct (get_node root (fp_node pf)) as [n|]; [|done].
  by destruct (_ =? _)%nat.
Qed.

(** The pointer taken at a field can be read as long as the vector has
    not moved to a larger buffer since. *)
Lemma deref_ptr_taken_at root q i n :
  get_node root q = Some n ->
  deref root (ptr_taken_at (q, i))
  = if (vector_capacity (S i) =? vector_capacity (length (c_fields n)))%nat
    then c_fields n !! i else None.
Proof. intros Hq. unfold deref, ptr_taken_at. simpl. by rewrite Hq. Qed.

(** Every pointer of an index entry was taken at a field of the tree
    with that Report ID, and it dangles exactly when the [fields] vector
    of its collection has moved to a larger buffer since: in a collection
    with two or more fields, the pointer to the first always dangles. *)
Lemma index_entry_pointer fuel bytes t k pf :
  parse fuel bytes = Some t ->
  pf ∈ find_by_report_id t k ->
  exists n f,
    get_node (root t) (fp_node pf) = Some n
    /\ c_fields n !! fp_pos pf = Some f /\ f_report_id f = k
    /\ (deref (root t) pf = None <->
        vector_capacity (S (fp_pos pf)) <> vector_capacity (length (c_fields n))).
Proof.
  intros Hp Hin. rewrite (find_by_report_id_taken _ _ _ _ Hp) in Hin.
  apply list_elem_of_fmap in Hin as ([q i] & -> & Hin).
  unfold with_report_id in Hin. apply list_elem_of_filter in Hin as [Hk _].
  unfold get_field in Hk. simpl in *.
  destruct (get_node (root t) q) as [n|] eqn:Hq; [|done].
  destruct (c_fields n !! i) as [f|] eqn:Hf; [|done].
  simpl in Hk. exists n, f. split_and!; [done|done|congruence|].
  rewrite (deref_ptr_taken_at _ _ _ _ Hq), Hf.
  destruct (Nat.eqb_spec (vector_capacity (S i))
              (vector_capacity (length (c_fields n)))); split; done.
Qed.

(** C3, at an input the code does not survive: the minimal mouse of the
    specification.  Its tree has two Input fields with Report ID 0, both
    in the Physical collection.  The index entry for 0 holds the two
    pointers taken when these fields were appended, in this order; the
    first points into the buffer that the [fields] vector of the
    collection left, and freed, when the second field was appended: it
    dangles, it is no Field of the tree, and reading through it is
    undefined.  Only the second pointer points to a field of the
    tree. *)
Theorem index_pointer_dangles :
  parse 10 mouse = Some mouse_tree
  /\ dfs_index_entry mouse_tree 0 = [([0; 0], 0); ([0; 0], 1)]%nat
  /\ get_field (root mouse_tree) ([0; 0], 0)%nat
     = Some (ReportField input 0 9 [1; 2; 3] 1 3 0 1 0 0 0 0 2)
  /\ get_field (root mouse_tree) ([0; 0], 1)%nat
     = Some (ReportField input 0 9 [] 5 1 0 1 0 0 0 0 3)
  /\ find_by_report_id mouse_tree 0
     = [FieldPtr [0; 0] 1 0; FieldPtr [0; 0] 2 1]%nat
  /\ deref (root mouse_tree) (FieldPtr [0; 0] 1 0)%nat = None
  /\ deref (root mouse_tree) (FieldPtr [0; 0] 2 1)%nat
     = Some (ReportField input 0 9 [] 5 1 0 1 0 0 0 0 3).
Proof. split_and!; vm_compute; reflexivity. Qed.

(** The order of an index entry is the order of the items in the byte
    stream: when a collection gets a field after one of its child
    collections was opened (fields with flags 1, 2, 3), it is not the
    depth-first, fields-before-children order (1, 3, 2). *)
Example index_entry_in_stream_order :
  parse 0 field_after_child = Some field_after_child_tree
  /\ place <$> find_by_report_id field_after_child_tree 0
     = [([], 0%nat); ([0%nat], 0%nat); ([], 1%nat)]
  /\ dfs_index_entry field_after_child_tree 0
     = [([], 0%nat); ([], 1%nat); ([0%nat], 0%nat)].
Proof. split_and!; vm_compute; reflexivity. Qed.

(** ** Feature reports *)

(** C9, as the code has it: on an opened device, an empty buffer fails
    with invalid-argument before any ioctl is made; otherwise the ioctl is
    made once, with the caller's buffer (whose first byte carries the
    Report ID); a negative return value fails with the system error of
    [errno]; a return value that is not the size of the buffer fails with
    the incomplete-read error; a return value equal to the size succeeds
    and the buffer is what the ioctl left in it. *)
Theorem feature_get_cases (ioctl_HIDIOCGFEATURE : Z -> list byte -> ioctl_result)
    (dev : device) (data : list byte) (calls : list (Z * list byte)) :
  0 <= fd dev ->
  let r := ioctl_HIDIOCGFEATURE (fd dev) data in
  (data = [] ->
     feature_get ioctl_HIDIOCGFEATURE dev data calls
     = (calls, inl (invalid_argument "Data buffer is empty")))
  /\ (data <> [] -> ret r < 0 ->
     feature_get ioctl_HIDIOCGFEATURE dev data calls
     = (calls ++ [(fd dev, data)],
        inl (system_error (errno r) "Failed to get feature report")))
  /\ (data <> [] -> 0 <= ret r -> ret r <> Z.of_nat (length data) ->
     feature_get ioctl_HIDIOCGFEATURE dev data calls
     = (calls ++ [(fd dev, data)],
        inl (runtime_error "Incomplete feature report read")))
  /\ (data <> [] -> ret r = Z.of_nat (length data) ->
     feature_get ioctl_HIDIOCGFEATURE dev data calls
     = (calls ++ [(fd dev, data)], inr (buffer r))).
Proof.
  intros Hfd r. unfold feature_get. fold r.
  destruct (Z.ltb_spec (fd dev) 0) as [?|_]; [lia|].
  split_and!.
  - intros ->. by rewrite bool_decide_eq_true_2.
  - intros Hne Hret. rewrite bool_decide_eq_false_2 by done.
    by destruct (Z.ltb_spec (ret r) 0) as [_|?]; [|lia].
  - intros Hne Hret Hlen. rewrite bool_decide_eq_false_2 by done.
    destruct (Z.ltb_spec (ret r) 0) as [?|_]; [lia|].
    by destruct (Z.eqb_spec (ret r) (Z.of_nat (length data))).
  - intros Hne Hret. rewrite bool_decide_eq_false_2 by done.
    destruct (Z.ltb_spec (ret r) 0) as [?|_]; [lia|].
    by destruct (Z.eqb_spec (ret r) (Z.of_nat (length data))).
Qed.

Lemma feature_get_cases_witness :
  feature_get ioctl_fills (Device 3) [x07; x00] []
  = ([(3, [x07; x00])], inr [x07; x2a]).
Proof.
  apply (feature_get_cases ioctl_fills (Device 3) [x07; x00] []).
  - simpl. lia.
  - discriminate.
  - reflexivity.
Defined.

(** C9, as stated, fails when the ioctl itself fails: the return value -1
    is below the size of the buffer, yet the call fails with the system
    error of [errno], which is neither the short-read error nor success. *)
Lemma feature_get_ioctl_failure :
  feature_get ioctl_fails (Device 3) [x07; x00] []
  = ([(3, [x07; x00])], inl (system_error 5 "Failed to get feature report"))
  /\ ~ feature_get_contract ioctl_fails (Device 3) [x07; x00].
Proof.
  split; [reflexivity|].
  unfold feature_get_contract. simpl. discriminate.
Qed.

(** ** The two renderers *)
















(** ** The scenarios of the specification *)

(** The minimal mouse: an Application collection holding a Physical
    collection with two Input fields, the first with the usages of the
    range 1..3. *)
Example parse_mouse :
  parse 10 mouse = Some mouse_tree
  /\ root mouse_tree =
     CollectionNode 0 0 0 []
       [CollectionNode 1 1 2 []
          [CollectionNode 0 1 1
             [ReportField input 0 9 [1; 2; 3] 1 3 0 1 0 0 0 0 2;
              ReportField input 0 9 [] 5 1 0 1 0 0 0 0 3]
             []]]
  /\ find_by_report_id mouse_tree 0
     = [FieldPtr [0; 0] 1 0; FieldPtr [0; 0] 2 1]%nat
  /\ find_by_report_id mouse_tree 99 = [].
Proof. split_and!; vm_compute; reflexivity. Qed.

(** The mouse without its last byte: the Physical collection is still in
    the tree, with its fields. *)
Example parse_mouse_truncated :
  (root <$> parse 10 (take 33 mouse)) = Some (root mouse_tree).
Proof. vm_compute. reflexivity. Qed.

(** The empty input. *)
Example parse_empty : forall fuel, parse fuel [] = Some tree_empty.
Proof. reflexivity. Qed.

(** * Further properties *)

(** ** The tokenizer: progress, spans and the short item *)

Lemma item_spans_tokenize n : forall p,
  length (item_spans n p) = length (tokenize n p).
Proof.
  induction n as [|n IH]; intros [|b p]; simpl; try done.
  destruct (parse_item (b :: p)) as [it p'] eqn:E. simpl. by rewrite IH.
Qed.

Lemma item_spans_tile n : forall p,
  (length p <= n)%nat ->
  concat (item_spans n p) = p /\ Forall (fun s => s <> []) (item_spans n p).
Proof.
  induction n as [|n IH]; intros [|b p] Hn; simpl in *; try done; try lia.
  pose proof (parse_item_shrinks b p) as Hs.
  destruct (parse_item (b :: p)) as [it p'] eqn:E. simpl in *.
  destruct (IH p' ltac:(lia)) as [Hc Hne].
  assert (Hp' : p' = drop (length p - length p') p /\ (length p' <= length p)%nat).
  { split; [|done].
    unfold parse_item in E. destruct (is_long_item (b2z b)).
    - destruct p as [|ds [|tg p3]]; simplify_eq; simpl;
        rewrite ?Nat.sub_diag; try done.
      rewrite length_drop.
      destruct (decide (Z.to_nat (b2z ds) <= length p3)%nat).
      + replace (S (S (length p3)) - (length p3 - Z.to_nat (b2z ds)))%nat
          with (S (S (Z.to_nat (b2z ds)))) by lia. done.
      + rewrite drop_ge by lia.
        replace (S (S (length p3)) - (length p3 - Z.to_nat (b2z ds)))%nat
          with (S (S (length p3))) by lia.
        simpl. by rewrite drop_all.
    - cbv zeta in E.
      assert (Hrd : forall m i v q, (read_data m i v q).2
                      = drop (length q - length (read_data m i v q).2) q).
      { clear. induction m as [|m IHm]; intros i v [|c q]; simpl;
          rewrite ?Nat.sub_diag; try done.
        pose proof (read_data_length m (i + 1)
                      (Z.lor v (u32 (Z.shiftl (b2z c) (8 * i)))) q).
        rewrite IHm at 1.
        replace (S (length q) - length (read_data m (i + 1)
                   (Z.lor v (u32 (Z.shiftl (b2z c) (8 * i)))) q).2)%nat
          with (S (length q - length (read_data m (i + 1)
                   (Z.lor v (u32 (Z.shiftl (b2z c) (8 * i)))) q).2)) by lia.
        done. }
      destruct (read_data _ 0 0 p) as [v q'] eqn:Er. simplify_eq.
      specialize (Hrd (Z.to_nat (if Z.land (b2z b) 3 =? 3 then 4
                                  else Z.land (b2z b) 3)) 0 0 p).
      rewrite Er in Hrd. exact Hrd. }
  destruct Hp' as [Hp' Hle]. split.
  - rewrite Hc.
    replace (S (length p) - length p')%nat with (S (length p - length p')) by lia.
    simpl. f_equal.
    transitivity (take (length p - length p') p
                  ++ drop (length p - length p') p);
      [by rewrite <- Hp'|apply take_drop].
  - constructor; [|done].
    replace (S (length p) - length p')%nat with (S (length p - length p')) by lia.
    done.
Qed.

(** X1: the byte spans of the items tile the input: concatenated in
    order they are the input, none is empty, and there is one per item;
    so a descriptor of n bytes has at most n items. *)
Theorem tokenizer_spans_tile (bytes : list byte) :
  concat (item_spans (length bytes) bytes) = bytes
  /\ Forall (fun s => s <> []) (item_spans (length bytes) bytes)
  /\ length (item_spans (length bytes) bytes) = length (items_of bytes)
  /\ (length (items_of bytes) <= length bytes)%nat.
Proof.
  destruct (item_spans_tile (length bytes) bytes ltac:(lia)) as [Hc Hne].
  split_and!; try done.
  - apply item_spans_tokenize.
  - unfold items_of. rewrite <- item_spans_tokenize.
    assert (Hlen : length bytes
                   = length (concat (item_spans (length bytes) bytes)))
      by (by rewrite Hc).
    rewrite Hlen at 2. clear Hc Hlen.
    induction Hne as [|s ss Hs _ IH]; simpl; [lia|].
    rewrite length_app. destruct s; [done|]. simpl. lia.
Qed.

Lemma lor_shiftl_add v x k :
  0 <= k -> 0 <= v < 2 ^ k -> Z.lor v (Z.shiftl x k) = v + x * 2 ^ k.
Proof.
  intros Hk Hv.
  pose proof (Z.add_lor_land v (Z.shiftl x k)) as Hadd.
  assert (Hland : Z.land v (Z.shiftl x k) = 0).
  { apply Z.bits_inj'. intros n Hn.
    rewrite Z.land_spec, Z.bits_0.
    destruct (Z.lt_ge_cases n k) as [Hlt|Hge].
    - by rewrite Z.shiftl_spec_low, andb_false_r.
    - rewrite <- (Z.mod_small v (2 ^ k)) by done.
      by rewrite Z.mod_pow2_bits_high. }
  rewrite Z.shiftl_mul_pow2 in * by done. lia.
Qed.

Lemma le_value_range bs : 0 <= le_value bs < 2 ^ (8 * Z.of_nat (length bs)).
Proof.
  induction bs as [|b bs IH]; [simpl; lia|].
  cbn [le_value length]. pose proof (b2z_range b).
  replace (8 * Z.of_nat (S (length bs))) with (8 + 8 * Z.of_nat (length bs)) by lia.
  rewrite Z.pow_add_r by lia. change (2 ^ 8) with 256. lia.
Qed.

(** The data loop reads the bytes little-endian. *)
Lemma read_data_le n : forall i v p,
  0 <= i -> i + Z.of_nat n <= 4 -> 0 <= v < 2 ^ (8 * i) ->
  read_data n i v p = (v + 2 ^ (8 * i) * le_value (take n p), drop n p).
Proof.
  induction n as [|n IH]; intros i v [|b p] Hi Hn Hv; simpl;
    rewrite ?Z.mul_0_r, ?Z.add_0_r; try done.
  pose proof (b2z_range b) as Hb.
  assert (Hpow : 2 ^ (8 * (i + 1)) = 256 * 2 ^ (8 * i)).
  { replace (8 * (i + 1)) with (8 + 8 * i) by lia.
    by rewrite Z.pow_add_r by lia. }
  assert (Hi4 : 2 ^ (8 * i) <= 2 ^ 24) by (apply Z.pow_le_mono_r; lia).
  assert (Hsh : u32 (Z.shiftl (b2z b) (8 * i)) = Z.shiftl (b2z b) (8 * i)).
  { unfold u32. apply Z.mod_small. rewrite Z.shiftl_mul_pow2 by lia.
    change (2 ^ 32) with (256 * 2 ^ 24). nia. }
  rewrite Hsh, lor_shiftl_add by lia.
  rewrite IH by (rewrite ?Hpow; lia || nia).
  rewrite Hpow. f_equal. lia.
Qed.

Lemma prefix_fields (b : byte) :
  0 <= Z.land (b2z b) 3 < 4
  /\ 0 <= Z.land (Z.shiftr (b2z b) 2) 3 < 4
  /\ 0 <= Z.land (Z.shiftr (b2z b) 4) 15 < 16
  /\ b2z b = 16 * Z.land (Z.shiftr (b2z b) 4) 15
             + 4 * Z.land (Z.shiftr (b2z b) 2) 3 + Z.land (b2z b) 3.
Proof. destruct b; vm_compute; repeat split; discriminate. Qed.

Lemma is_long_item_iff (b : byte) : is_long_item (b2z b) = true <-> b = xfe.
Proof. destruct b; vm_compute; split; congruence. Qed.

(** The decoding of a short item. *)
Lemma parse_item_short (b : byte) (p : list byte) :
  b <> xfe ->
  exists tag type code,
    b2z b = 16 * tag + 4 * type + code
    /\ 0 <= tag < 16 /\ 0 <= type < 4 /\ 0 <= code < 4
    /\ let size := if code =? 3 then 4 else code in
       parse_item (b :: p)
       = (Item size type tag (le_value (take (Z.to_nat size) p)),
          drop (Z.to_nat size) p).
Proof.
  intros Hb.
  destruct (prefix_fields b) as (Hc & Ht & Hg & Heq).
  exists (Z.land (Z.shiftr (b2z b) 4) 15), (Z.land (Z.shiftr (b2z b) 2) 3),
    (Z.land (b2z b) 3).
  split_and!; try done; try lia.
  cbv zeta. unfold parse_item.
  destruct (is_long_item (b2z b)) eqn:El; [by apply is_long_item_iff in El|].
  cbv zeta.
  rewrite read_data_le; [|lia| |lia].
  - by rewrite Z.add_0_l, Z.mul_0_r, Z.pow_0_r, Z.mul_1_l.
  - destruct (Z.land (b2z b) 3 =? 3); lia.
Qed.

(** X2: a prefix byte other than 0xFE is read as a short item: the byte
    is [16 * tag + 4 * type + code] with a 4-bit tag, a 2-bit type and a
    2-bit size code, the size is the code (4 for code 3), the data word is
    the little-endian value of the next [size] bytes, or of the bytes that
    are left when there are fewer, and the cursor moves past them. *)
Theorem short_item_decoded (b : byte) (p : list byte) :
  b <> xfe ->
  exists tag type code,
    b2z b = 16 * tag + 4 * type + code
    /\ 0 <= tag < 16 /\ 0 <= type < 4 /\ 0 <= code < 4
    /\ let size := if code =? 3 then 4 else code in
       parse_item (b :: p)
       = (Item size type tag (le_value (take (Z.to_nat size) p)),
          drop (Z.to_nat size) p).
Proof. apply parse_item_short. Qed.

Lemma short_item_decoded_witness :
  exists tag type code,
    b2z x26 = 16 * tag + 4 * type + code
    /\ 0 <= tag < 16 /\ 0 <= type < 4 /\ 0 <= code < 4
    /\ let size := if code =? 3 then 4 else code in
       parse_item [x26; x34; x12; xc0]
       = (Item size type tag (le_value (take (Z.to_nat size) [x34; x12; xc0])),
          drop (Z.to_nat size) [x34; x12; xc0]).
Proof. apply (short_item_decoded x26 [x34; x12; xc0]). discriminate. Defined.

Lemma parse_item_wf p : item_wf (parse_item p).1.
Proof.
  destruct p as [|b p]; [right; simpl; lia|].
  destruct (is_long_item (b2z b)) eqn:El.
  - apply is_long_item_iff in El as ->.
    destruct p as [|ds [|tg p3]]; [right; simpl; lia..|]. by left.
  - assert (Hb : b <> xfe).
    { intros Hx. apply is_long_item_iff in Hx. congruence. }
    destruct (parse_item_short b p Hb)
      as (tag & type & code & _ & Ht & Hty & Hc & Hp).
    cbv zeta in Hp. rewrite Hp. right. simpl.
    split_and!; try lia.
    + destruct (Z.eqb_spec code 3); lia.
    + apply le_value_range.
    + pose proof (le_value_range
        (take (Z.to_nat (if code =? 3 then 4 else code)) p)) as [_ Hlt].
      eapply Z.lt_le_trans; [exact Hlt|].
      apply Z.pow_le_mono_r; [lia|]. rewrite length_take.
      destruct (Z.eqb_spec code 3); lia.
Qed.

(** X3: every item the tokenizer yields, on any input, is the long-item
    marker or has a tag below 16, a type below 4, a size of 0, 1, 2 or 4
    and a data word below [2^(8 * size)]. *)
Theorem items_well_formed (bytes : list byte) :
  Forall item_wf (items_of bytes).
Proof.
  unfold items_of. generalize (length bytes) as n. intros n. revert bytes.
  induction n as [|n IH]; intros [|b p]; simpl; try constructor.
  pose proof (parse_item_wf (b :: p)) as H.
  destruct (parse_item (b :: p)) as [it p'] eqn:E.
  constructor; [exact H|apply IH].
Qed.

(** ** Sign extension *)

Lemma sint_spec (w v : Z) :
  0 < w ->
  - 2 ^ (w - 1) <= sint w v < 2 ^ (w - 1)
  /\ sint w v mod 2 ^ w = v mod 2 ^ w.
Proof.
  intros Hw. unfold sint.
  assert (Hpow : 2 ^ w = 2 * 2 ^ (w - 1)).
  { rewrite <- Z.pow_succ_r by lia. f_equal. lia. }
  assert (0 < 2 ^ (w - 1)) by (apply Z.pow_pos_nonneg; lia).
  pose proof (Z.mod_pos_bound v (2 ^ w) ltac:(lia)) as Hm.
  destruct (Z.ltb_spec (v mod 2 ^ w) (2 ^ (w - 1))).
  - split; [lia|]. by rewrite Z.mod_mod by lia.
  - split; [lia|].
    rewrite <- (Z.mod_add _ 1) by lia.
    replace (v mod 2 ^ w - 2 ^ w + 1 * 2 ^ w) with (v mod 2 ^ w) by lia.
    by rewrite Z.mod_mod by lia.
Qed.

Lemma sint_narrow (w v : Z) : 8 <= w -> sint 8 (sint w v) = sint 8 v.
Proof.
  intros Hw. destruct (sint_spec w v ltac:(lia)) as [_ Hmod].
  assert (Hdiv : (2 ^ 8 | 2 ^ w)).
  { exists (2 ^ (w - 8)). rewrite <- Z.pow_add_r by lia. f_equal. lia. }
  assert (0 < 2 ^ w) by (apply Z.pow_pos_nonneg; lia).
  unfold sint at 1 3.
  rewrite <- (Z.mod_mod_divide (sint w v) (2 ^ w) (2 ^ 8)) by done.
  rewrite <- (Z.mod_mod_divide v (2 ^ w) (2 ^ 8)) by done.
  by rewrite Hmod.
Qed.

(** X4: for an item of 1, 2 or 4 data bytes, [sign_extend] reads the data
    word as a two's complement number of that width: the result is in the
    signed range, is the word itself below the sign bit and the word minus
    [2^(8 * size)] from the sign bit on; and the unit exponent, the result
    narrowed to 8 bits, is the low byte of the word read as signed. *)
Theorem sign_extend_twos_complement (v size : Z) :
  size = 1 \/ size = 2 \/ size = 4 ->
  0 <= v < 2 ^ (8 * size) ->
  - 2 ^ (8 * size - 1) <= sign_extend v size < 2 ^ (8 * size - 1)
  /\ (v < 2 ^ (8 * size - 1) -> sign_extend v size = v)
  /\ (2 ^ (8 * size - 1) <= v -> sign_extend v size = v - 2 ^ (8 * size))
  /\ sint 8 (sign_extend v size) = sint 8 v.
Proof.
  intros Hsize Hv.
  assert (Hse : sign_extend v size = sint (8 * size) v).
  { unfold sign_extend. by destruct Hsize as [-> | [-> | ->]]. }
  rewrite Hse.
  destruct (sint_spec (8 * size) v ltac:(lia)) as [Hrange _].
  split; [done|]. split_and!.
  - intros Hlt. unfold sint. rewrite Z.mod_small by lia.
    by destruct (Z.ltb_spec v (2 ^ (8 * size - 1))); [|lia].
  - intros Hge. unfold sint. rewrite Z.mod_small by lia.
    by destruct (Z.ltb_spec v (2 ^ (8 * size - 1))); [lia|].
  - apply sint_narrow. lia.
Qed.

Lemma sign_extend_twos_complement_witness :
  sign_extend 0xFF 1 = -1 /\ sign_extend 0x7F 1 = 127
  /\ sign_extend 0x8000 2 = -32768.
Proof.
  split_and!.
  - apply (sign_extend_twos_complement 0xFF 1); [by left|lia..].
  - apply (sign_extend_twos_complement 0x7F 1); [by left|lia..].
  - apply (sign_extend_twos_complement 0x8000 2); [right; by left|lia..].
Defined.

(** ** Which part of the state an item touches *)

(** X5: every Main item the evaluator gets past, whatever its tag,
    leaves the local state cleared (no usages, no range flag, range 0..0)
    and the global state and its stack of saved states as they were. *)
Theorem main_item_clears_local (fuel : nat) (st st' : parser) (it : item) :
  it_type it = 0 ->
  step fuel st it = Some st' ->
  l st' = local_clear /\ g st' = g st /\ gstack st' = gstack st.
Proof.
  intros Ht. unfold step, step_main, set_l. rewrite Ht. simpl.
  intros H. repeat (case_match; simplify_eq; simpl; try done).
Qed.

Lemma main_item_clears_local_witness :
  l (default parser_init (step 0 parser_init (Item 1 0 0x0A 1))) = local_clear
  /\ g (default parser_init (step 0 parser_init (Item 1 0 0x0A 1)))
     = g parser_init
  /\ gstack (default parser_init (step 0 parser_init (Item 1 0 0x0A 1)))
     = gstack parser_init.
Proof.
  apply (main_item_clears_local 0 parser_init
           (default parser_init (step 0 parser_init (Item 1 0 0x0A 1)))
           (Item 1 0 0x0A 1)).
  - reflexivity.
  - vm_compute. reflexivity.
Defined.

(** X6: an item that is not a Main item always yields a state and never
    touches the tree, the index, [current] or the collection stack; a
    Global item leaves the local state, a Local item leaves the global
    state and its stack, and an item of any other type leaves
    everything. *)
Theorem other_items_leave_tree (fuel : nat) (st : parser) (it : item) :
  it_type it <> 0 ->
  exists st', step fuel st it = Some st'
    /\ root_ st' = root_ st
    /\ index_by_report_id_ st' = index_by_report_id_ st
    /\ current st' = current st /\ stack st' = stack st
    /\ (it_type it = 1 -> l st' = l st)
    /\ (it_type it = 2 -> g st' = g st /\ gstack st' = gstack st)
    /\ (it_type it <> 1 -> it_type it <> 2 -> st' = st).
Proof.
  intros Ht. unfold step.
  destruct (Z.eqb_spec (it_type it) 0) as [?|_]; [done|].
  destruct (Z.eqb_spec (it_type it) 1) as [E1|E1].
  - eexists. split; [done|]. unfold step_global.
    destruct (eval_global _ _ _). simpl. split_and!; try done; lia.
  - destruct (Z.eqb_spec (it_type it) 2) as [E2|E2].
    + eexists. split; [done|]. unfold step_local, set_l.
      repeat case_match; simpl; split_and!; try done; lia.
    + exists st. split_and!; try done; lia.
Qed.

Lemma other_items_leave_tree_witness :
  exists st', step 0 parser_init (Item 1 2 0 0x30) = Some st'
    /\ root_ st' = root_ parser_init.
Proof.
  destruct (other_items_leave_tree 0 parser_init (Item 1 2 0 0x30))
    as (st' & H1 & H2 & _).
  - discriminate.
  - by exists st'.
Defined.

(** ** The collection stack *)

Lemma ancestors_nil : ancestors [] = [[]].
Proof. reflexivity. Qed.

Lemma ancestors_snoc (p : node_ptr) (i : nat) :
  ancestors (p ++ [i]) = (p ++ [i]) :: ancestors p.
Proof.
  unfold ancestors. rewrite length_app. cbn [length].
  rewrite Nat.add_1_r, (seq_S (S (length p))), reverse_app, reverse_singleton.
  cbn [app fmap list_fmap Nat.add].
  f_equal.
  - by rewrite take_ge by (rewrite length_app; simpl; lia).
  - apply list_fmap_ext. intros j k Hk. simpl.
    apply list_elem_of_lookup_2 in Hk.
    apply elem_of_reverse, elem_of_seq in Hk.
    by rewrite take_app_le by lia.
Qed.

Lemma step_stack_ancestors fuel st it st' :
  step fuel st it = Some st' ->
  stack st = ancestors (current st) ->
  stack st' = ancestors (current st').
Proof.
  intros Hstep Hinv.
  destruct (step_effect _ _ _ _ Hstep)
    as [(_ & _ & _ & Hst)|[(_ & _ & _ & Hcur & Hst)
       |(_ & _ & _ & Hcur & Hst & _)]].
  - destruct Hst as [Heq|(c0 & rest & Hs0 & Hs1)].
    + injection Heq as -> ->. done.
    + rewrite Hs0 in Hinv. rewrite Hs1.
      destruct (current st) as [|i p _] eqn:Ec using rev_ind.
      * by rewrite ancestors_nil in Hinv.
      * rewrite ancestors_snoc in Hinv.
        injection Hinv as _ Hrest.
        assert (Hp : current st' = p).
        { destruct p as [|j q _] using rev_ind.
          - rewrite ancestors_nil in Hrest. by simplify_eq.
          - rewrite ancestors_snoc in Hrest. by simplify_eq. }
        by rewrite Hp, <- Hrest, Hp.
  - by rewrite Hst, Hcur, ancestors_snoc, Hinv.
  - by rewrite Hst, Hcur.
Qed.

Lemma steps_stack_ancestors fuel its : forall st0 st1,
  steps fuel st0 its = Some st1 ->
  stack st0 = ancestors (current st0) ->
  stack st1 = ancestors (current st1).
Proof.
  induction its as [|it its IH]; intros st0 st1 H Hi; simpl in H.
  - by simplify_eq.
  - destruct (step fuel st0 it) as [st'|] eqn:E; [|done].
    eapply IH; [exact H|]. by eapply step_stack_ancestors.
Qed.

(** X7: after any sequence of items the collection stack is the path
    from [current] up to the root: its top is [current], each entry is the
    parent of the one above, its bottom is the root, and it is one longer
    than [current] is deep. *)
Theorem collection_stack_is_path (fuel : nat) (its : list item) (st : parser) :
  steps fuel parser_init its = Some st ->
  stack st = ancestors (current st)
  /\ head (stack st) = Some (current st)
  /\ length (stack st) = S (length (current st)).
Proof.
  intros H.
  pose proof (steps_stack_ancestors _ _ _ _ H eq_refl) as Hinv.
  split; [done|]. rewrite Hinv. unfold ancestors.
  split.
  - rewrite seq_S, reverse_app, reverse_singleton.
    cbn [app fmap list_fmap head Nat.add]. by rewrite take_ge.
  - by rewrite length_fmap, length_reverse, length_seq.
Qed.

Lemma collection_stack_is_path_witness :
  stack (default parser_init
           (steps 0 parser_init [Item 1 0 0x0A 1; Item 1 0 0x0A 0]))
  = ancestors (current (default parser_init
           (steps 0 parser_init [Item 1 0 0x0A 1; Item 1 0 0x0A 0]))).
Proof.
  apply (collection_stack_is_path 0 [Item 1 0 0x0A 1; Item 1 0 0x0A 0]
           (default parser_init
              (steps 0 parser_init [Item 1 0 0x0A 1; Item 1 0 0x0A 0]))).
  vm_compute. reflexivity.
Defined.

(** ** Opening and closing collections *)

Lemma is_collection_item_not_field it :
  is_collection_item it = true -> is_field_item it = false.
Proof.
  unfold is_collection_item, is_field_item.
  destruct (it_type it =? 0); [|done]. simpl. intros H.
  assert (it_tag it = 10) by lia.
  repeat (apply orb_false_intro); lia.
Qed.

(** X8: a Collection item, in any state the parser reaches, always yields
    a state: the current collection gets one more child, at the end of its
    children, with the low byte of the data as type, the global usage page,
    the last accumulated local usage (0 when there is none), no fields and
    no children; [current] moves to that child. *)
Theorem collection_item_opens_child (fuel : nat) (its : list item)
    (st : parser) (it : item) :
  steps fuel parser_init its = Some st ->
  is_collection_item it = true ->
  exists st' n,
    step fuel st it = Some st'
    /\ get_node (root_ st) (current st) = Some n
    /\ current st' = current st ++ [length (c_children n)]
    /\ get_node (root_ st') (current st) =
         Some (CollectionNode (c_type n) (c_usage_page n) (c_usage n) (c_fields n)
                 (c_children n ++
                  [CollectionNode (u8 (it_data it)) (g_usage_page (g st))
                     (default 0 (last (l_usages (l st)))) [] []]))
    /\ get_node (root_ st') (current st') =
         Some (CollectionNode (u8 (it_data it)) (g_usage_page (g st))
                 (default 0 (last (l_usages (l st)))) [] []).
Proof.
  intros Hsteps Hit.
  pose proof (steps_valid_ptrs _ _ _ _ Hsteps parser_init_valid_ptrs) as [[n Hn] _].
  unfold is_collection_item in Hit. apply andb_prop in Hit as [Ht Hg].
  unfold step, step_main. rewrite Ht, Hg.
  eexists _, n. split; [done|]. simpl.
  unfold current_node. rewrite Hn. simpl.
  split_and!; try done.
  - by rewrite (get_node_update_same _ _ _ _ Hn).
  - rewrite get_node_app, (get_node_update_same _ _ _ _ Hn). simpl.
    by rewrite list_lookup_middle.
Qed.

Lemma collection_item_opens_child_witness :
  exists st' n,
    step 0 parser_init (Item 1 0 0x0A 1) = Some st'
    /\ get_node (root_ parser_init) (current parser_init) = Some n
    /\ current st' = current parser_init ++ [length (c_children n)].
Proof.
  destruct (collection_item_opens_child 0 [] parser_init (Item 1 0 0x0A 1))
    as (st' & n & H1 & H2 & H3 & _).
  - reflexivity.
  - reflexivity.
  - by exists st', n.
Defined.

(** X9: an End Collection item, in any state the parser reaches, always
    yields a state, changes neither the tree nor the index, and moves
    [current] to its parent; at the root it stays at the root. *)
Theorem end_collection_moves_to_parent (fuel : nat) (its : list item)
    (st : parser) (it : item) :
  steps fuel parser_init its = Some st ->
  is_end_collection_item it = true ->
  exists st',
    step fuel st it = Some st'
    /\ root_ st' = root_ st
    /\ index_by_report_id_ st' = index_by_report_id_ st
    /\ current st' = take (length (current st) - 1) (current st)
    /\ stack st' = ancestors (current st').
Proof.
  intros Hsteps Hit.
  pose proof (steps_stack_ancestors _ _ _ _ Hsteps eq_refl) as Hinv.
  unfold is_end_collection_item in Hit. apply andb_prop in Hit as [Ht Hg].
  assert (Htag : (it_tag it =? 10) = false) by lia.
  unfold step, step_main. rewrite Ht, Htag, Hg.
  destruct (current st) as [|i p _] eqn:Ec using rev_ind.
  - rewrite Hinv, ancestors_nil. eexists. split; [done|].
    simpl. by rewrite Ec, Hinv.
  - rewrite Hinv, ancestors_snoc.
    destruct p as [|j q _] using rev_ind.
    + rewrite ancestors_nil. eexists. split; [done|]. by simpl.
    + rewrite ancestors_snoc. eexists. split; [done|]. simpl.
      split_and!; try done.
      * rewrite length_app. simpl.
        by rewrite Nat.add_sub, take_app_length.
      * by rewrite ancestors_snoc.
Qed.

Lemma end_collection_moves_to_parent_witness :
  exists st',
    step 0 parser_init (Item 0 0 0x0C 0) = Some st'
    /\ current st' = take (length (current parser_init) - 1) (current parser_init).
Proof.
  destruct (end_collection_moves_to_parent 0 [] parser_init (Item 0 0 0x0C 0))
    as (st' & H1 & _ & _ & H2 & _).
  - reflexivity.
  - reflexivity.
  - by exists st'.
Defined.

(** ** How many nodes and fields the tree has *)

Lemma children_count_app count l1 l2 :
  children_count count (l1 ++ l2)
  = (children_count count l1 + children_count count l2)%nat.
Proof. induction l1 as [|c l1 IH]; simpl; [done|]. rewrite IH. lia. Qed.

Lemma node_count_unfold n :
  node_count n = children_count node_count (c_children n).
Proof. by destruct n. Qed.

Lemma node_count_update_node h q : forall root n k,
  get_node root q = Some n ->
  node_count (h n) = (node_count n + k)%nat ->
  node_count (update_node h root q) = (node_count root + k)%nat.
Proof.
  induction q as [|i q IH]; intros root n k Hq Hh; simpl in *.
  - by simplify_eq.
  - destruct (c_children root !! i) as [c|] eqn:Hc; [|done].
    specialize (IH c n k Hq Hh).
    rewrite !node_count_unfold. simpl.
    rewrite insert_take_drop by (by eapply lookup_lt_Some).
    pose proof (take_drop_middle _ _ _ Hc) as Hsplit.
    set (l1 := take i (c_children root)) in *.
    set (l2 := drop (S i) (c_children root)) in *.
    rewrite <- Hsplit, !children_count_app. simpl. rewrite IH. lia.
Qed.

Lemma step_node_count fuel st it st' :
  step fuel st it = Some st' -> valid_ptrs st ->
  node_count (root_ st')
  = (node_count (root_ st) + if is_collection_item it then 1 else 0)%nat.
Proof.
  intros Hstep [[n Hn] _]. revert Hstep.
  unfold step, is_collection_item.
  destruct (it_type it =? 0) eqn:Et; simpl.
  - unfold step_main. destruct (it_tag it =? 10) eqn:E1.
    + intros; simplify_eq. simpl.
      rewrite (node_count_update_node _ _ _ n 1%nat Hn); [done|].
      rewrite !node_count_unfold. simpl. rewrite children_count_app. simpl. lia.
    + unfold set_l. repeat case_match; intros; simplify_eq; simpl; try lia.
      all: rewrite (node_count_update_node _ _ _ n 0%nat Hn); [done|].
      all: rewrite !node_count_unfold; simpl; lia.
  - unfold step_global, step_local, set_l.
    repeat case_match; intros; simplify_eq; simpl; lia.
Qed.

Lemma steps_node_count fuel its : forall st st',
  steps fuel st its = Some st' -> valid_ptrs st ->
  node_count (root_ st')
  = (node_count (root_ st) + length (List.filter is_collection_item its))%nat.
Proof.
  induction its as [|it its IH]; intros st st' H Hv; simpl in H.
  - simplify_eq. simpl. lia.
  - destruct (step fuel st it) as [st1|] eqn:E; [|done].
    rewrite (IH _ _ H) by (by eapply step_valid_ptrs).
    rewrite (step_node_count _ _ _ _ E Hv). simpl.
    destruct (is_collection_item it); simpl; lia.
Qed.

Lemma emitted_ptrs_length fuel its : forall st st',
  steps fuel st its = Some st' ->
  length (emitted_ptrs fuel st its) = length (List.filter is_field_item its).
Proof.
  induction its as [|it its IH]; intros st st' H; simpl in *; [done|].
  destruct (step fuel st it) as [st1|] eqn:E; [|done].
  rewrite length_app, (IH _ _ H).
  destruct (is_field_item it); simpl; lia.
Qed.

(** X10: the tree [parse] returns has, below the root, exactly one
    collection node per Collection item of the input, closed or not, and
    exactly one field per Input, Output or Feature item. *)
Theorem tree_counts_items (fuel : nat) (bytes : list byte)
    (t : report_descriptor_tree) :
  parse fuel bytes = Some t ->
  node_count (root t) = length (List.filter is_collection_item (items_of bytes))
  /\ length (dfs_field_ptrs (root t))
     = length (List.filter is_field_item (items_of bytes)).
Proof.
  rewrite parse_steps. intros Hp.
  destruct (steps fuel parser_init (items_of bytes)) as [stf|] eqn:E; [|done].
  simpl in Hp. simplify_eq. simpl. split.
  - by rewrite (steps_node_count _ _ _ _ E parser_init_valid_ptrs).
  - destruct (steps_index_consistent _ _ _ _ [] E parser_init_valid_ptrs
                parser_init_index_consistent) as (_ & _ & Hperm).
    simpl in Hperm. rewrite <- Hperm. by eapply emitted_ptrs_length.
Qed.

Lemma tree_counts_items_witness :
  node_count (root mouse_tree) = 2%nat
  /\ length (dfs_field_ptrs (root mouse_tree)) = 2%nat.
Proof.
  apply (tree_counts_items 10 mouse mouse_tree). vm_compute. reflexivity.
Defined.

(** ** The annotated listing follows the parser *)

#[local] Ltac case_ifs :=
  repeat match goal with
         | |- context [if ?b then _ else _] => destruct b eqn:?
         end.

Lemma render_state_depth s it :
  (render_state s it).2 =
  if is_collection_item it then s.2 + 1
  else if is_end_collection_item it then (if 0 <? s.2 then s.2 - 1 else s.2)
  else s.2.
Proof.
  unfold render_state, describe, is_collection_item, is_end_collection_item.
  destruct (it_type it =? 0) eqn:Et; simpl.
  - destruct (it_tag it =? 10) eqn:E1; [done|].
    destruct (it_tag it =? 12) eqn:E2; [done|].
    by case_ifs.
  - by case_ifs.
Qed.

Lemma render_state_page s it :
  (render_state s it).1 =
  if (it_type it =? 1) && (it_tag it =? 0) then u16 (it_data it) else s.1.
Proof.
  unfold render_state, describe.
  destruct (it_type it =? 0) eqn:Et.
  - assert ((it_type it =? 1) = false) as -> by lia. simpl.
    by case_ifs.
  - destruct (it_type it =? 1) eqn:E1; simpl.
    + destruct (it_tag it =? 0) eqn:E2; [done|]. by case_ifs.
    + by case_ifs.
Qed.

Lemma step_stack_length fuel st it st' :
  step fuel st it = Some st' ->
  Z.of_nat (length (stack st')) - 1 =
  if is_collection_item it then (Z.of_nat (length (stack st)) - 1) + 1
  else if is_end_collection_item it
       then (if 0 <? Z.of_nat (length (stack st)) - 1
             then Z.of_nat (length (stack st)) - 1 - 1
             else Z.of_nat (length (stack st)) - 1)
  else Z.of_nat (length (stack st)) - 1.
Proof.
  unfold step, is_collection_item, is_end_collection_item.
  destruct (it_type it =? 0) eqn:Et; simpl.
  - unfold step_main. destruct (it_tag it =? 10) eqn:E1.
    { intros; simplify_eq. simpl. lia. }
    destruct (it_tag it =? 12) eqn:E2.
    { destruct (stack st) as [|c0 [|top rest]] eqn:Es; intros; simplify_eq;
        simpl; rewrite ?Es; simpl;
        try match goal with
            | |- context [0 <? ?x] => destruct (Z.ltb_spec 0 x)
            end; lia. }
    unfold set_l. repeat case_match; intros; simplify_eq; simpl; lia.
  - unfold step_global, step_local, set_l.
    repeat case_match; intros; simplify_eq; simpl; lia.
Qed.

Lemma step_usage_page fuel st it st' :
  step fuel st it = Some st' ->
  is_pop_item it = false ->
  g_usage_page (g st') =
  if (it_type it =? 1) && (it_tag it =? 0) then u16 (it_data it)
  else g_usage_page (g st).
Proof.
  unfold step, is_pop_item.
  destruct (it_type it =? 0) eqn:Et.
  - assert ((it_type it =? 1) = false) as -> by lia. simpl.
    unfold step_main, set_l. repeat case_match; intros; simplify_eq; simpl; done.
  - destruct (it_type it =? 1) eqn:E1; simpl.
    + intros ? Hpop; simplify_eq. unfold step_global, eval_global.
      rewrite Hpop. destruct (g st).
      repeat case_match; simplify_eq; simpl; try done; lia.
    + unfold step_local, set_l.
      repeat case_match; intros; simplify_eq; simpl; done.
Qed.

Lemma steps_render_states fuel its : forall s st st',
  steps fuel st its = Some st' ->
  s.2 = Z.of_nat (length (stack st)) - 1 ->
  (foldl render_state s its).2 = Z.of_nat (length (stack st')) - 1
  /\ (Forall (fun it => is_pop_item it = false) its ->
      s.1 = g_usage_page (g st) ->
      (foldl render_state s its).1 = g_usage_page (g st')).
Proof.
  induction its as [|it its IH]; intros s st st' H Hd; simpl in H.
  - by simplify_eq.
  - destruct (step fuel st it) as [st1|] eqn:E; [|done].
    simpl.
    assert (Hd1 : (render_state s it).2 = Z.of_nat (length (stack st1)) - 1).
    { rewrite render_state_depth, (step_stack_length _ _ _ _ E), Hd. done. }
    destruct (IH _ _ _ H Hd1) as [IHd IHp]. split; [done|].
    intros Hall Hpg. inversion Hall as [|? ? Hpop Hrest]; subst.
    apply IHp; [done|].
    by rewrite render_state_page, (step_usage_page _ _ _ _ E Hpop), Hpg.
Qed.

(** X11: after the same items, the depth that [to_string] indents by is
    the depth of the parser's current collection (the same floor at the
    root, the same count of unclosed collections); and as long as no Pop
    item has occurred, the usage page that [to_string] names usages with
    is the parser's global usage page. *)
Theorem listing_follows_parser (fuel : nat) (its : list item) (st : parser) :
  steps fuel parser_init its = Some st ->
  (render_states its).2 = Z.of_nat (length (current st))
  /\ (Forall (fun it => is_pop_item it = false) its ->
      (render_states its).1 = g_usage_page (g st)).
Proof.
  intros H.
  destruct (steps_render_states fuel its (0, 0) parser_init st H eq_refl)
    as [Hd Hp].
  pose proof (steps_stack_ancestors _ _ _ _ H eq_refl) as Hinv.
  split.
  - unfold render_states. rewrite Hd, Hinv. unfold ancestors.
    rewrite length_fmap, length_reverse, length_seq. lia.
  - intros Hall. by apply Hp.
Qed.

Lemma listing_follows_parser_witness :
  (render_states [Item 1 0 0x0A 1; Item 1 1 0 9]).2
  = Z.of_nat (length (current (default parser_init
      (steps 0 parser_init [Item 1 0 0x0A 1; Item 1 1 0 9])))).
Proof.
  apply (listing_follows_parser 0 [Item 1 0 0x0A 1; Item 1 1 0 9]
           (default parser_init
              (steps 0 parser_init [Item 1 0 0x0A 1; Item 1 1 0 9]))).
  vm_compute. reflexivity.
Defined.

(** ** The shape of the annotated listing *)

Lemma string_length_app (s1 s2 : string) :
  String.length (s1 +:+ s2) = (String.length s1 + String.length s2)%nat.
Proof.
  induction s1 as [|a s1 IH]; [done|].
  change (S (String.length (s1 +:+ s2)) = S (String.length s1 + String.length s2)).
  by rewrite IH.
Qed.

Lemma spaces_length n : String.length (spaces n) = n.
Proof. induction n as [|n IH]; simpl; [done|]. by rewrite IH. Qed.

Lemma format_X_byte_length (b : byte) :
  String.length (format_X 2 (b2z b)) = 2%nat.
Proof. destruct b; reflexivity. Qed.

Lemma item_bytes_text_length bs : forall first,
  String.length (item_bytes_text first bs)
  = (6 * length bs - if first then if bs is [] then 0 else 2 else 0)%nat.
Proof.
  induction bs as [|b bs IH]; intros first; [by destruct first|].
  cbn [item_bytes_text length].
  rewrite !string_length_app, format_X_byte_length, IH.
  destruct first; simpl; lia.
Qed.

(** X12: the bytes column of a line of the annotated listing is 22
    characters wide for an item of one to three bytes, and is the byte
    list followed by one space, [6 * n - 1] characters, for an item of
    [n > 3] bytes. *)
Theorem item_bytes_column_width (bs : list byte) :
  bs <> [] ->
  String.length (append_item_bytes bs)
  = if (length bs <=? 3)%nat then 22%nat else (6 * length bs - 1)%nat.
Proof.
  intros Hne. unfold append_item_bytes.
  rewrite string_length_app, item_bytes_text_length, spaces_length.
  destruct bs as [|b bs]; [done|]. cbn [length].
  destruct (Nat.leb_spec 24 (S (length bs) * 6)),
    (Nat.leb_spec (S (length bs)) 3); lia.
Qed.

Lemma item_bytes_column_width_witness :
  String.length (append_item_bytes [x05; x01]) = 22%nat.
Proof. apply (item_bytes_column_width [x05; x01]). discriminate. Defined.

Lemma count_nl_app (s1 s2 : string) :
  count_nl (s1 +:+ s2) = (count_nl s1 + count_nl s2)%nat.
Proof.
  induction s1 as [|a s1 IH]; [done|].
  change (((if Ascii.eqb a (ascii_of_nat 10) then 1 else 0)
           + count_nl (s1 +:+ s2))%nat
          = ((if Ascii.eqb a (ascii_of_nat 10) then 1 else 0)
             + count_nl s1 + count_nl s2)%nat).
  rewrite IH. lia.
Qed.

Lemma count_nl_if (b : bool) (s1 s2 : string) :
  count_nl s1 = O -> count_nl s2 = O -> count_nl (if b then s1 else s2) = O.
Proof. by destruct b. Qed.

Lemma count_nl_spaces n : count_nl (spaces n) = O.
Proof. induction n as [|n IH]; [done|]. exact IH. Qed.

Lemma count_nl_zeros n : count_nl (zeros n) = O.
Proof. induction n as [|n IH]; [done|]. exact IH. Qed.

Lemma hex_digit_not_nl d :
  0 <= d < 16 -> Ascii.eqb (hex_digit d) (ascii_of_nat 10) = false.
Proof.
  intros Hd.
  assert (Hcases : d = 0 \/ d = 1 \/ d = 2 \/ d = 3 \/ d = 4 \/ d = 5 \/ d = 6
                   \/ d = 7 \/ d = 8 \/ d = 9 \/ d = 10 \/ d = 11 \/ d = 12
                   \/ d = 13 \/ d = 14 \/ d = 15) by lia.
  repeat (destruct Hcases as [-> | Hcases]; [reflexivity|]).
  by subst.
Qed.

Lemma count_nl_hex_digits n : forall x acc,
  count_nl (hex_digits n x acc) = count_nl acc.
Proof.
  induction n as [|n IH]; intros x acc; [done|].
  cbn [hex_digits].
  assert (Hacc : count_nl (String (hex_digit (x mod 16)) acc) = count_nl acc).
  { cbn [count_nl]. rewrite hex_digit_not_nl; [done|].
    apply Z.mod_pos_bound. lia. }
  destruct (x / 16 =? 0); [done|]. by rewrite IH.
Qed.

Lemma count_nl_format_X w x : count_nl (format_X w x) = O.
Proof.
  unfold format_X. by rewrite count_nl_app, count_nl_zeros, count_nl_hex_digits.
Qed.

Lemma count_nl_uint d : count_nl (NilEmpty.string_of_uint d) = O.
Proof. induction d; simpl; done. Qed.

Lemma count_nl_dec x : count_nl (dec x) = O.
Proof.
  unfold dec, NilZero.string_of_int, NilZero.string_of_uint.
  destruct (Z.to_int x) as [d|d].
  - destruct d; try done; apply (count_nl_uint (_ d)) || apply count_nl_uint.
  - cbn [count_nl]. simpl.
    destruct d; try done; apply (count_nl_uint (_ d)) || apply count_nl_uint.
Qed.

Lemma count_nl_collection_type_name t : count_nl (collection_type_name t) = O.
Proof. unfold collection_type_name. by repeat case_match. Qed.

Lemma count_nl_usage_page_name page : count_nl (usage_page_name page) = O.
Proof.
  unfold usage_page_name.
  repeat case_match; try done; by rewrite count_nl_app, count_nl_format_X.
Qed.

Lemma count_nl_usage_name page usage : count_nl (usage_name page usage) = O.
Proof.
  unfold usage_name.
  repeat case_match; try done; by rewrite count_nl_app, count_nl_format_X.
Qed.

Lemma count_nl_flags_text raw kind :
  count_nl (input_output_feature_flags_text raw kind) = O.
Proof.
  unfold input_output_feature_flags_text. cbv zeta.
  rewrite !count_nl_app.
  destruct kind; by rewrite !count_nl_if.
Qed.

Lemma count_nl_describe it up d : count_nl (describe it up d).1.1 = O.
Proof.
  unfold describe.
  repeat match goal with
         | |- context [if ?b then _ else _] => destruct b
         end; cbn [fst];
    rewrite ?count_nl_app, ?count_nl_format_X, ?count_nl_dec,
      ?count_nl_collection_type_name, ?count_nl_usage_page_name,
      ?count_nl_usage_name, ?count_nl_flags_text; done.
Qed.

Lemma count_nl_item_bytes_text bs : forall first,
  count_nl (item_bytes_text first bs) = O.
Proof.
  induction bs as [|b bs IH]; intros first; [done|].
  cbn [item_bytes_text].
  rewrite !count_nl_app, count_nl_format_X, IH. by destruct first.
Qed.

Lemma count_nl_to_string_loop n : forall up d p,
  count_nl (to_string_loop n up d p) = length (tokenize n p).
Proof.
  induction n as [|n IH]; intros up d [|b p]; simpl; try done.
  destruct (parse_item (b :: p)) as [it p'] eqn:E.
  pose proof (count_nl_describe it up d) as Hd.
  destruct (describe it up d) as [[text up'] d'] eqn:Ed. simpl in Hd.
  unfold append_item_bytes.
  rewrite !count_nl_app, count_nl_item_bytes_text, !count_nl_spaces, Hd, IH.
  done.
Qed.

(** X13: the text of [to_string] has exactly one line per item of the
    source bytes, followed by the two lines of the trailer (the blank
    line and the byte count): no part of a line contains a line feed. *)
Theorem to_string_line_count (t : report_descriptor_tree) :
  count_nl (to_string t) = (length (items_of (source_bytes t)) + 2)%nat.
Proof.
  unfold to_string, items_of.
  rewrite !count_nl_app, count_nl_to_string_loop, count_nl_dec. simpl. lia.
Qed.

(** ** The hex dump of a descriptor *)

Lemma to_hex_loop_shape data : forall i,
  String.length (to_hex_loop i data)
  = (3 * length data + ((i + length data) / 16 - i / 16))%nat
  /\ count_nl (to_hex_loop i data) = ((i + length data) / 16 - i / 16)%nat.
Proof.
  induction data as [|b data IH]; intros i.
  - simpl. rewrite Nat.add_0_r. lia.
  - cbn [to_hex_loop length].
    rewrite !string_length_app, !count_nl_app, format_X_byte_length,
      count_nl_format_X.
    destruct (IH (S i)) as [-> ->].
    replace (i + S (length data))%nat with (S i + length data)%nat by lia.
    assert (Hstep : (if ((i + 1) mod 16 =? 0)%nat
                     then (S i / 16 = S (i / 16))%nat
                     else (S i / 16 = i / 16)%nat)).
    { replace (i + 1)%nat with (S i) by lia.
      pose proof (Nat.div_mod_eq i 16). pose proof (Nat.div_mod_eq (S i) 16).
      pose proof (Nat.mod_upper_bound i 16).
      pose proof (Nat.mod_upper_bound (S i) 16).
      destruct (Nat.eqb_spec (S i mod 16) 0); lia. }
    assert (Hmono : (S i / 16 <= (S i + length data) / 16)%nat).
    { apply Nat.Div0.div_le_mono. lia. }
    generalize dependent (S i / 16)%nat. intros q1.
    generalize ((S i + length data) / 16)%nat (i / 16)%nat. intros q2 q0.
    destruct ((i + 1) mod 16 =? 0)%nat; simpl; lia.
Qed.

(** X14: the hex dump of a null descriptor is empty; otherwise it is the
    line [size: N], then three characters per byte of the descriptor and
    a line feed after every 16th byte: the last, partial row has no line
    feed. *)
Theorem to_hex_shape (d : descriptor) :
  match ptr d with
  | None => to_hex d = ""%string
  | Some buf =>
      count_nl (to_hex d) = (1 + length (to_bytes d) / 16)%nat
      /\ String.length (to_hex d)
         = (String.length ("size: " +:+ dec (head_size buf) +:+ nl)
            + 3 * length (to_bytes d) + length (to_bytes d) / 16)%nat
  end.
Proof.
  unfold to_hex, to_bytes. destruct (ptr d) as [buf|]; [|done].
  destruct (to_hex_loop_shape
              (take (Z.to_nat (head_size buf)) (desc_data buf)) 0) as [Hl Hc].
  rewrite Nat.add_0_l, Nat.sub_0_r in Hl, Hc.
  split.
  - rewrite !count_nl_app, count_nl_dec, Hc. simpl. lia.
  - rewrite !string_length_app in *. rewrite Hl. simpl. lia.
Qed.

(** ** Opening, closing and the closed device *)

Section device_properties.
Variable os_open : string -> Z * Z.
Variable os_HIDIOCGRDESCSIZE : Z -> ioctl_int_result.
Variable os_HIDIOCGRDESC : Z -> Z -> ioctl_result.
Variable os_HIDIOCGRAWINFO : Z -> ioctl_info_result.
Variable os_HIDIOCGRAWNAME : Z -> ioctl_result.
Variable os_HIDIOCGRAWPHYS : Z -> ioctl_result.
Variable ioctl_HIDIOCGFEATURE : Z -> list byte -> ioctl_result.

(** X15: after [close], whatever the device was, it is not valid, a
    second [close] makes no system call, and every query
    ([report_desc_size], [report_desc], [raw_info], [raw_name], [addr],
    [feature_get]) fails with "Device not opened" without making a system
    call. *)
Theorem closed_device_refuses (dev : device) (calls0 : list syscall)
    (calls : list syscall) (data : list byte) (fcalls : list (Z * list byte)) :
  let dev' := (close dev calls0).1 in
  valid dev' = false
  /\ close dev' calls = (dev', calls)
  /\ report_desc_size os_HIDIOCGRDESCSIZE dev' calls
     = (calls, inl (runtime_error "Device not opened"))
  /\ report_desc os_HIDIOCGRDESCSIZE os_HIDIOCGRDESC dev' calls
     = (calls, inl (runtime_error "Device not opened"))
  /\ raw_info os_HIDIOCGRAWINFO dev' calls
     = (calls, inl (runtime_error "Device not opened"))
  /\ raw_name os_HIDIOCGRAWNAME dev' calls
     = (calls, inl (runtime_error "Device not opened"))
  /\ addr os_HIDIOCGRAWPHYS dev' calls
     = (calls, inl (runtime_error "Device not opened"))
  /\ feature_get ioctl_HIDIOCGFEATURE dev' data fcalls
     = (fcalls, inl (runtime_error "Device not opened")).
Proof.
  cbv zeta.
  assert (Hfd : fd (close dev calls0).1 = -1).
  { unfold close, valid. destruct (Z.eqb_spec (fd dev) (-1)); simpl; [done|done]. }
  destruct (close dev calls0).1 as [f] eqn:Ed. simpl in Hfd. subst f.
  by split_and!.
Qed.

(** X16: [open] on a valid device fails with "Device already opened",
    makes no system call and leaves the device as it is.  On a device that
    is not valid it makes exactly the one [open] call; when that returns a
    descriptor the device is valid and opened with it; when it returns -1
    the call fails with the system error of [errno] and the device is
    still not valid, so that [open] can be called again. *)
Theorem open_outcomes (dev : device) (path : string) (calls : list syscall) :
  (valid dev = true ->
     open os_open dev path calls
     = (dev, calls, Some (runtime_error "Device already opened")))
  /\ (valid dev = false -> 0 <= (os_open path).1 ->
     open os_open dev path calls
     = (Device (os_open path).1, calls ++ [sys_open path], None)
     /\ valid (Device (os_open path).1) = true)
  /\ (valid dev = false -> (os_open path).1 = -1 ->
     open os_open dev path calls
     = (Device (-1), calls ++ [sys_open path],
        Some (system_error (os_open path).2
                ("Failed to open device at '" +:+ path +:+ "'")))
     /\ valid (Device (-1)) = false).
Proof.
  unfold open. split_and!.
  - by intros ->.
  - intros -> Hret. destruct (os_open path) as [r e]. simpl in *.
    destruct (Z.ltb_spec r 0); [lia|]. split; [done|].
    unfold valid. simpl. by destruct (Z.eqb_spec r (-1)); [lia|].
  - intros -> Hret. destruct (os_open path) as [r e]. simpl in *. by subst.
Qed.

(** X17: on an opened device [report_desc] asks for the size first; when
    that ioctl fails it fails with its system error and does not ask for
    the descriptor; otherwise it asks for the descriptor with that size,
    fails with the system error of that ioctl when it fails, and
    otherwise returns a descriptor whose bytes are the [size] bytes the
    kernel wrote. *)
Theorem report_desc_outcomes (dev : device) (calls : list syscall) :
  0 <= fd dev ->
  let rs := os_HIDIOCGRDESCSIZE (fd dev) in
  let size := u32 (u64 (ivalue rs)) in
  let rd := os_HIDIOCGRDESC (fd dev) size in
  (iret rs < 0 ->
     report_desc os_HIDIOCGRDESCSIZE os_HIDIOCGRDESC dev calls
     = (calls ++ [sys_HIDIOCGRDESCSIZE (fd dev)],
        inl (system_error (ierrno rs) "Failed to get report descriptor size")))
  /\ (0 <= iret rs -> ret rd < 0 ->
     report_desc os_HIDIOCGRDESCSIZE os_HIDIOCGRDESC dev calls
     = (calls ++ [sys_HIDIOCGRDESCSIZE (fd dev); sys_HIDIOCGRDESC (fd dev) size],
        inl (system_error (errno rd) "Failed to get report descriptor")))
  /\ (0 <= iret rs -> 0 <= ret rd -> length (buffer rd) = Z.to_nat size ->
     exists d,
       report_desc os_HIDIOCGRDESCSIZE os_HIDIOCGRDESC dev calls
       = (calls ++ [sys_HIDIOCGRDESCSIZE (fd dev); sys_HIDIOCGRDESC (fd dev) size],
          inr d)
       /\ to_bytes d = buffer rd).
Proof.
  intros Hfd. cbv zeta. unfold report_desc, report_desc_size.
  destruct (Z.ltb_spec (fd dev) 0); [lia|].
  split_and!.
  - intros Hr. by destruct (Z.ltb_spec (iret (os_HIDIOCGRDESCSIZE (fd dev))) 0); [|lia].
  - intros Hr Hd.
    destruct (Z.ltb_spec (iret (os_HIDIOCGRDESCSIZE (fd dev))) 0); [lia|].
    rewrite <- app_assoc. simpl.
    by destruct (Z.ltb_spec (ret (os_HIDIOCGRDESC (fd dev)
               (u32 (u64 (ivalue (os_HIDIOCGRDESCSIZE (fd dev))))))) 0); [|lia].
  - intros Hr Hd Hlen.
    destruct (Z.ltb_spec (iret (os_HIDIOCGRDESCSIZE (fd dev))) 0); [lia|].
    rewrite <- app_assoc. simpl.
    destruct (Z.ltb_spec (ret (os_HIDIOCGRDESC (fd dev)
               (u32 (u64 (ivalue (os_HIDIOCGRDESCSIZE (fd dev))))))) 0); [lia|].
    eexists. split; [done|]. unfold to_bytes. simpl.
    apply take_ge. lia.
Qed.

Lemma strlen_le s : (strlen s <= length s)%nat.
Proof.
  induction s as [|b s IH]; simpl; [lia|]. destruct (b2z b =? 0); lia.
Qed.

Lemma take_strlen_no_nul s : Forall (fun b => b2z b <> 0) (take (strlen s) s).
Proof.
  induction s as [|b s IH]; simpl; [constructor|].
  destruct (Z.eqb_spec (b2z b) 0); simpl; [constructor|]. by constructor.
Qed.

Lemma strlen_app_nul s k : strlen (s ++ replicate (S k) x00) = strlen s.
Proof.
  induction s as [|b s IH]; [done|]. cbn [app strlen].
  destruct (b2z b =? 0); [done|]. by rewrite IH.
Qed.

Lemma take_strlen_take n : forall s,
  take (strlen (take n s)) (take n s) = take n (take (strlen s) s).
Proof.
  induction n as [|n IH]; intros [|b s]; simpl; try done.
  destruct (b2z b =? 0); simpl; [done|]. by rewrite IH.
Qed.

(** What [raw_name] and [addr] make of the buffer: the bytes the kernel
    wrote before its first NUL, at most [max_len] of them. *)
Lemma take_strlen_filled n written :
  take (strlen (filled n written)) (filled n written)
  = take n (take (strlen written) written).
Proof.
  unfold filled. rewrite take_strlen_take.
  destruct n as [|n]; [done|]. f_equal.
  rewrite strlen_app_nul. apply take_app_le, strlen_le.
Qed.

(** X18: when their ioctl succeeds, [raw_name] and [addr] return the
    bytes the kernel wrote up to, and not including, its first NUL, and no
    more than 256 of them; the result contains no NUL. *)
Theorem raw_name_is_c_string (dev : device) (calls : list syscall) :
  0 <= fd dev ->
  (0 <= ret (os_HIDIOCGRAWNAME (fd dev)) ->
     exists name,
       raw_name os_HIDIOCGRAWNAME dev calls
       = (calls ++ [sys_HIDIOCGRAWNAME (fd dev) 256], inr name)
       /\ name = take 256 (take (strlen (buffer (os_HIDIOCGRAWNAME (fd dev))))
                            (buffer (os_HIDIOCGRAWNAME (fd dev))))
       /\ Forall (fun b => b2z b <> 0) name /\ (length name <= 256)%nat)
  /\ (0 <= ret (os_HIDIOCGRAWPHYS (fd dev)) ->
     exists a,
       addr os_HIDIOCGRAWPHYS dev calls
       = (calls ++ [sys_HIDIOCGRAWPHYS (fd dev) 256], inr a)
       /\ a = take 256 (take (strlen (buffer (os_HIDIOCGRAWPHYS (fd dev))))
                         (buffer (os_HIDIOCGRAWPHYS (fd dev))))
       /\ Forall (fun b => b2z b <> 0) a /\ (length a <= 256)%nat).
Proof.
  intros Hfd. unfold raw_name, addr.
  destruct (Z.ltb_spec (fd dev) 0); [lia|]. cbv zeta.
  split; intros Hret.
  - destruct (Z.ltb_spec (ret (os_HIDIOCGRAWNAME (fd dev))) 0); [lia|].
    eexists. split; [done|]. rewrite take_strlen_filled.
    split; [done|]. split.
    + apply Forall_take, take_strlen_no_nul.
    + rewrite length_take. lia.
  - destruct (Z.ltb_spec (ret (os_HIDIOCGRAWPHYS (fd dev))) 0); [lia|].
    eexists. split; [done|]. rewrite take_strlen_filled.
    split; [done|]. split.
    + apply Forall_take, take_strlen_no_nul.
    + rewrite length_take. lia.
Qed.
End device_properties.

Lemma open_outcomes_witness :
  open (fun _ => (3, 0)) (Device (-1)) "/dev/hidraw0" []
  = (Device 3, [sys_open "/dev/hidraw0"], None).
Proof.
  apply (open_outcomes (fun _ => (3, 0)) (Device (-1)) "/dev/hidraw0" []).
  - reflexivity.
  - simpl. lia.
Defined.

Lemma report_desc_outcomes_witness :
  exists d,
    report_desc (fun _ => IoctlIntResult 0 0 2)
      (fun _ _ => IoctlResult 0 0 [x05; x01]) (Device 3) []
    = ([sys_HIDIOCGRDESCSIZE 3; sys_HIDIOCGRDESC 3 2], inr d)
    /\ to_bytes d = [x05; x01].
Proof.
  apply (report_desc_outcomes (fun _ => IoctlIntResult 0 0 2)
           (fun _ _ => IoctlResult 0 0 [x05; x01]) (Device 3) []);
    simpl; try lia; reflexivity.
Defined.

Lemma raw_name_is_c_string_witness :
  exists name,
    raw_name (fun _ => IoctlResult 3 0 [x41; x42; x00; x43]) (Device 3) []
    = ([sys_HIDIOCGRAWNAME 3 256], inr name)
    /\ name = [x41; x42]
    /\ Forall (fun b => b2z b <> 0) name /\ (length name <= 256)%nat.
Proof.
  apply (raw_name_is_c_string (fun _ => IoctlResult 3 0 [x41; x42; x00; x43])
           (fun _ => IoctlResult 0 0 []) (Device 3) []);
    simpl; lia.
Defined.

(** ** Report IDs on the command line *)

Lemma digit_of_range base c d : digit_of base c = Some d -> 0 <= d < base.
Proof.
  unfold digit_of. cbv zeta.
  set (n := Z.of_nat (nat_of_ascii c)).
  destruct (Z.leb_spec 48 n), (Z.leb_spec n 57),
    (Z.leb_spec 97 n), (Z.leb_spec n 122),
    (Z.leb_spec 65 n), (Z.leb_spec n 90); simpl;
    match goal with |- context [?x <? base] => destruct (Z.ltb_spec x base) end;
    intros; simplify_eq; lia.
Qed.

Lemma digits_value_nonneg base s : forall acc,
  0 < base -> 0 <= acc -> 0 <= digits_value base s acc.
Proof.
  induction s as [|c s IH]; intros acc Hb Ha; simpl; [done|].
  apply IH; [done|].
  destruct (digit_of base c) as [d|] eqn:E; simpl; [|nia].
  apply digit_of_range in E. nia.
Qed.

Lemma from_chars_digits_all base s : forall acc seen,
  all_digits base s = true ->
  from_chars_digits base s acc seen
  = (digits_value base s acc,
     seen || negb (bool_decide (s = ""%string)), ""%string).
Proof.
  induction s as [|c s IH]; intros acc seen H; simpl in *.
  - by rewrite orb_false_r.
  - destruct (digit_of base c) as [d|]; [|done]. simpl.
    rewrite (IH _ _ H). by rewrite orb_true_r.
Qed.

Lemma from_chars_digits_rest base s : forall acc seen,
  all_digits base s = false ->
  (from_chars_digits base s acc seen).2 <> ""%string.
Proof.
  induction s as [|c s IH]; intros acc seen H; simpl in *; [done|].
  destruct (digit_of base c) as [d|]; [by apply IH|done].
Qed.

Lemma parse_report_id_body self arg body base :
  0 < base ->
  (arg <> ""%string) ->
  (match hex_prefix arg with
   | Some rest => (rest, 16)
   | None => (arg, 10)
   end) = (body, base) ->
  forall v,
    parse_report_id self arg = inr v <->
    body <> ""%string /\ all_digits base body = true
    /\ digits_value base body 0 = v /\ v <= 255.
Proof.
  intros Hb Hne Hbody v. unfold parse_report_id.
  rewrite bool_decide_false by done. rewrite Hbody.
  unfold from_chars_u8.
  destruct (all_digits base body) eqn:Ed.
  - rewrite (from_chars_digits_all _ _ 0 false Ed). simpl.
    case_bool_decide as Hb0; simpl.
    + split; [done|]. by intros [? _].
    + destruct (Z.ltb_spec 255 (digits_value base body 0)); simpl.
      * split; [done|]. intros (_ & _ & <- & ?). lia.
      * destruct (Z.ltb_spec 255 (digits_value base body 0)); [lia|].
        split; [|by intros (_ & _ & <- & _)].
        intros [= <-]. done.
  - pose proof (from_chars_digits_rest base body 0 false Ed) as Hrest.
    destruct (from_chars_digits base body 0 false) as [[x seen] rest].
    simpl in Hrest. split; [|by intros (_ & ? & _)].
    destruct seen; simpl; [|done].
    destruct (Z.ltb_spec 255 x); simpl; [done|].
    rewrite bool_decide_false by done. done.
Qed.

(** X19: [parse_report_id] accepts exactly the arguments that are, after
    an optional [0x] or [0X], a non-empty run of digits of the base
    (16 with the prefix, 10 without) and nothing else -- no sign, no
    space, no trailing text -- whose value is at most 255; the result is
    that value, between 0 and 255.  The empty argument and a bare prefix
    are not accepted. *)
Theorem parse_report_id_accepts (self : interact) (arg : string) (v : Z) :
  let '(body, base) := match hex_prefix arg with
                       | Some rest => (rest, 16)
                       | None => (arg, 10)
                       end in
  (parse_report_id self arg = inr v <->
     body <> ""%string /\ all_digits base body = true
     /\ digits_value base body 0 = v /\ v <= 255)
  /\ (parse_report_id self arg = inr v -> 0 <= v <= 255).
Proof.
  destruct (match hex_prefix arg with
            | Some rest => (rest, 16)
            | None => (arg, 10)
            end) as [body base] eqn:Hbody.
  assert (Hbase : 0 < base).
  { destruct (hex_prefix arg); simplify_eq; lia. }
  assert (Hiff : parse_report_id self arg = inr v <->
     body <> ""%string /\ all_digits base body = true
     /\ digits_value base body 0 = v /\ v <= 255).
  { destruct (decide (arg = ""%string)) as [->|Hne].
    - simpl in Hbody. simplify_eq. split; [done|]. by intros [? _].
    - by apply parse_report_id_body. }
  split; [done|].
  intros H. apply Hiff in H as (_ & _ & <- & Hle). split; [|done].
  by apply digits_value_nonneg.
Qed.

Lemma parse_report_id_accepts_witness :
  parse_report_id (Interact "feature-get" "") "0x1F" = inr 31.
Proof.
  pose proof (parse_report_id_accepts (Interact "feature-get" "") "0x1F" 31)
    as H.
  simpl in H. destruct H as [H _]. apply H. by vm_compute.
Defined.

Lemma parse_report_id_printed_check self :
  forallb (fun n =>
    let v := Z.of_nat n in
    match parse_report_id self (dec v),
          parse_report_id self ("0x" +:+ format_X 1 v),
          parse_report_id self ("0X" +:+ format_X 2 v) with
    | inr a, inr b, inr c => (a =? v) && (b =? v) && (c =? v)
    | _, _, _ => false
    end) (seq 0 256) = true.
Proof. vm_compute. reflexivity. Qed.

(** X20: a Report ID as the tool prints it is read back by
    [parse_report_id] as the same ID: in decimal ([{}]), and in
    hexadecimal ([{:X}] or [{:02X}]) after [0x] or [0X]. *)
Theorem parse_report_id_round_trip (self : interact) (v : Z) :
  0 <= v <= 255 ->
  parse_report_id self (dec v) = inr v
  /\ parse_report_id self ("0x" +:+ format_X 1 v) = inr v
  /\ parse_report_id self ("0X" +:+ format_X 2 v) = inr v.
Proof.
  intros Hv.
  pose proof (parse_report_id_printed_check self) as H.
  rewrite forallb_forall in H.
  specialize (H (Z.to_nat v)). rewrite Z2Nat.id in H by lia.
  cbv zeta in H.
  assert (Hin : In (Z.to_nat v) (seq 0 256)) by (apply in_seq; lia).
  specialize (H Hin).
  destruct (parse_report_id self (dec v)) as [|a]; [done|].
  destruct (parse_report_id self ("0x" +:+ format_X 1 v)) as [|b]; [done|].
  destruct (parse_report_id self ("0X" +:+ format_X 2 v)) as [|c]; [done|].
  apply andb_true_iff in H as [H Hc]. apply andb_true_iff in H as [Ha Hb].
  apply Z.eqb_eq in Ha, Hb, Hc. by subst.
Qed.

Lemma parse_report_id_round_trip_witness :
  parse_report_id (Interact "feature-get" "") (dec 200) = inr 200.
Proof.
  apply (parse_report_id_round_trip (Interact "feature-get" "") 200). lia.
Defined.

(** ** The feature-get command *)

Lemma tokenize_length n : forall p, (length (tokenize n p) <= length p)%nat.
Proof.
  induction n as [|n IH]; intros [|b p]; simpl; try lia.
  pose proof (parse_item_shrinks b p) as Hs.
  destruct (parse_item (b :: p)) as [it p'] eqn:E. simpl in *.
  specialize (IH p'). lia.
Qed.

Lemma filter_length_le {A} (f : A -> bool) (l : list A) :
  (length (List.filter f l) <= length l)%nat.
Proof. induction l as [|x l IH]; simpl; [lia|]. destruct (f x); simpl; lia. Qed.

(** The tree has no more fields than the descriptor has bytes. *)
Lemma parse_field_count fuel bytes t :
  parse fuel bytes = Some t ->
  (length (dfs_field_ptrs (root t)) <= length bytes)%nat.
Proof.
  rewrite parse_steps. intros Hp.
  destruct (steps fuel parser_init (items_of bytes)) as [stf|] eqn:E; [|done].
  simpl in Hp. simplify_eq. simpl.
  destruct (steps_index_consistent _ _ _ _ [] E parser_init_valid_ptrs
              parser_init_index_consistent) as (_ & _ & Hperm).
  simpl in Hperm. rewrite <- Hperm.
  rewrite (emitted_ptrs_length _ _ _ _ E).
  pose proof (filter_length_le is_field_item (items_of bytes)).
  pose proof (tokenize_length (length bytes) bytes). unfold items_of in *. lia.
Qed.

Lemma field_size_bytes_range f : 0 <= field_size_bytes f < 2 ^ 29.
Proof.
  unfold field_size_bytes, u32.
  pose proof (Z.mod_pos_bound
                ((f_report_size_bits f * f_report_count f) mod 2 ^ 32 + 7)
                (2 ^ 32) ltac:(lia)).
  split; [apply Z.div_pos; lia|].
  apply Z.div_lt_upper_bound; lia.
Qed.

Lemma feature_bytes_range root pf : 0 <= feature_bytes root pf < 2 ^ 29.
Proof.
  unfold feature_bytes. pose proof field_size_bytes_range.
  destruct (get_field root pf) as [f|]; [|lia].
  specialize (H f). destruct (f_kind f); lia.
Qed.

Lemma feature_bytes_sum_range root l :
  0 <= foldr Z.add 0 (feature_bytes root <$> l)
  <= Z.of_nat (length l) * 2 ^ 29.
Proof.
  induction l as [|pf l IH]; [simpl; lia|].
  rewrite fmap_cons. cbn [foldr length].
  pose proof (feature_bytes_range root pf). lia.
Qed.

Lemma feature_bytes_sum_perm root l1 l2 :
  l1 ≡ₚ l2 ->
  foldr Z.add 0 (feature_bytes root <$> l1)
  = foldr Z.add 0 (feature_bytes root <$> l2).
Proof. induction 1; rewrite ?fmap_cons; cbn [foldr]; [done|lia..]. Qed.

(** Over pointers that can all be read, the size loop adds up the bytes
    of the Feature fields at their places. *)
Lemma feature_size_loop_sum root l : forall acc,
  Forall (fun pf => is_Some (deref root pf)) l ->
  0 <= acc ->
  acc + foldr Z.add 0 (feature_bytes root <$> (place <$> l)) < 2 ^ 64 ->
  feature_size_loop root l acc
  = Some (acc + foldr Z.add 0 (feature_bytes root <$> (place <$> l))).
Proof.
  induction l as [|pf l IH]; intros acc Hl Ha Hb; [simpl; f_equal; lia|].
  apply Forall_cons in Hl as [[f Hf] Hl].
  rewrite !fmap_cons in *. cbn [foldr feature_size_loop] in *.
  pose proof (feature_bytes_range root (place pf)) as Hr.
  pose proof (feature_bytes_sum_range root (place <$> l)) as Hs.
  unfold feature_bytes in *.
  rewrite Hf. rewrite (deref_get_field _ _ _ Hf) in *.
  destruct (f_kind f).
  - rewrite IH; [f_equal|..]; try done; lia.
  - rewrite IH; [f_equal|..]; try done; lia.
  - unfold u64. rewrite Z.mod_small by lia.
    rewrite IH; [f_equal|..]; try done; lia.
Qed.


Lemma to_bytes_report_desc_length ds dd dev calls calls1 desc :
  report_desc ds dd dev calls = (calls1, inr desc) ->
  0 <= fd dev /\ Z.of_nat (length (to_bytes desc)) < 2 ^ 32.
Proof.
  unfold report_desc, report_desc_size.
  destruct (Z.ltb_spec (fd dev) 0); [done|].
  destruct (iret (ds (fd dev)) <? 0); [done|].
  destruct (ret _ <? 0); [done|].
  intros [= <- <-]. split; [done|]. unfold to_bytes. simpl.
  rewrite length_take.
  pose proof (Z.mod_pos_bound (u64 (ivalue (ds (fd dev)))) (2 ^ 32) ltac:(lia)).
  unfold u32 in *. lia.
Qed.

Section main_properties.
Variable os_HIDIOCGRDESCSIZE : Z -> ioctl_int_result.
Variable os_HIDIOCGRDESC : Z -> Z -> ioctl_result.
Variable ioctl_HIDIOCGFEATURE : Z -> list byte -> ioctl_result.

(** The command up to its request, when every pointer of the index
    entry can be read: the size it computes is the size of the feature
    report of the tree, and the buffer is the Report ID and that many
    zero bytes. *)
Lemma main_feature_get_sized fuel dev k output_path calls calls1 desc t :
  report_desc os_HIDIOCGRDESCSIZE os_HIDIOCGRDESC dev calls = (calls1, inr desc) ->
  parse fuel (to_bytes desc) = Some t ->
  0 <= fd dev
  /\ 0 <= feature_report_size t k < 2 ^ 61
  /\ (Forall (fun pf => is_Some (deref (root t) pf)) (find_by_report_id t k) ->
      main_feature_get os_HIDIOCGRDESCSIZE os_HIDIOCGRDESC
        ioctl_HIDIOCGFEATURE fuel dev k output_path calls
      = if feature_report_size t k =? 0 then
          Returns (calls1,
                   inl (runtime_error ("No feature report with ID " +:+
                                       dec k +:+ " found.")))
        else
          let '(log, r) :=
            feature_get ioctl_HIDIOCGFEATURE dev
              (z2b k :: replicate (Z.to_nat (feature_report_size t k)) x00) [] in
          let calls2 :=
            (calls1 ++ ((fun c => sys_HIDIOCGFEATURE c.1 c.2) <$> log))%list in
          match r with
          | inl e => Returns (calls2, inl e)
          | inr buffer' =>
            match output_path with
            | None =>
              Returns (calls2,
                       inr (print_report k (feature_report_size t k) buffer'))
            | Some _ => Returns (calls2, inr ""%string)
            end
          end).
Proof.
  intros Hdesc Hparse.
  destruct (to_bytes_report_desc_length _ _ _ _ _ _ Hdesc) as [Hfd Hlen].
  pose proof (parse_field_count _ _ _ Hparse) as Hcount.
  pose proof (find_by_report_id_places _ _ _ k Hparse) as Hperm.
  pose proof (feature_bytes_sum_range (root t) (dfs_index_entry t k)) as Hsum.
  assert (Hfl : (length (dfs_index_entry t k)
                 <= length (dfs_field_ptrs (root t)))%nat).
  { unfold dfs_index_entry, with_report_id. apply length_filter. }
  assert (Hn : 0 <= feature_report_size t k < 2 ^ 61).
  { unfold feature_report_size. nia. }
  split_and!; [lia..|]. intros Hlive.
  assert (Hloop : feature_size_loop (root t) (find_by_report_id t k) 0
                  = Some (feature_report_size t k)).
  { rewrite feature_size_loop_sum;
      rewrite ?(feature_bytes_sum_perm _ _ _ Hperm);
      fold (feature_report_size t k); try done; try lia. }
  unfold main_feature_get. rewrite Hdesc, Hparse. cbv zeta. rewrite Hloop.
  destruct (Z.eqb_spec (feature_report_size t k) 0); [done|].
  assert (Hbuf : <[0%nat := z2b k]>
                   (replicate (Z.to_nat (u64 (feature_report_size t k + 1))) x00)
                 = z2b k :: replicate (Z.to_nat (feature_report_size t k)) x00).
  { unfold u64. rewrite Z.mod_small by lia.
    replace (Z.to_nat (feature_report_size t k + 1))
      with (S (Z.to_nat (feature_report_size t k))) by lia.
    done. }
  by rewrite Hbuf.
Qed.


Lemma print_report_loop_lines bytes : forall j,
  count_nl (print_report_loop (S j) bytes)
  = (length bytes + ((j + length bytes) / 16 - j / 16))%nat.
Proof.
  induction bytes as [|b bytes IH]; intros j.
  - simpl. rewrite Nat.add_0_r. lia.
  - cbn [print_report_loop length].
    rewrite !count_nl_app, count_nl_format_X, (IH (S j)).
    replace (j + S (length bytes))%nat with (S j + length bytes)%nat by lia.
    assert (Hstep : (if (S j mod 16 =? 0)%nat
                     then (S j / 16 = S (j / 16))%nat
                     else (S j / 16 = j / 16)%nat)).
    { pose proof (Nat.div_mod_eq j 16). pose proof (Nat.div_mod_eq (S j) 16).
      pose proof (Nat.mod_upper_bound j 16).
      pose proof (Nat.mod_upper_bound (S j) 16).
      destruct (Nat.eqb_spec (S j mod 16) 0); lia. }
    assert (Hmono : (S j / 16 <= (S j + length bytes) / 16)%nat).
    { apply Nat.Div0.div_le_mono. lia. }
    generalize dependent (S j / 16)%nat. intros q1.
    generalize ((S j + length bytes) / 16)%nat (j / 16)%nat. intros q2 q0.
    destruct (S j mod 16 =? 0)%nat; simpl; lia.
Qed.

Lemma div_ceil_16 m :
  (m / 16 + (if negb (m mod 16 =? 0) then 1 else 0) = (m + 15) / 16)%nat.
Proof.
  pose proof (Nat.div_mod_eq m 16). pose proof (Nat.div_mod_eq (m + 15) 16).
  pose proof (Nat.mod_upper_bound m 16).
  pose proof (Nat.mod_upper_bound (m + 15) 16).
  destruct (Nat.eqb_spec (m mod 16) 0); cbn [negb]; lia.
Qed.

Lemma print_report_lines k n buf :
  count_nl (print_report k n buf)
  = (1 + (length buf - 1) + (length buf - 1 + 15) / 16)%nat.
Proof.
  unfold print_report.
  rewrite !count_nl_app, !count_nl_dec, print_report_loop_lines, length_drop.
  rewrite <- div_ceil_16.
  replace (0 + (length buf - 1))%nat with (length buf - 1)%nat by lia.
  change (0 / 16)%nat with 0%nat. rewrite Nat.sub_0_r.
  generalize ((length buf - 1) / 16)%nat. intros q.
  destruct (negb _); simpl; lia.
Qed.

(** X22: when every pointer of the index entry can be read, the
    feature-get command, after its request, passes on the failure of
    [device::feature_get] (the system error of the ioctl, or "Incomplete
    feature report read" when the device returned another number of bytes
    than the buffer has).  On success without an output path the text it
    prints has 1 + n + ceil(n/16) lines for the [n] bytes after the Report
    ID: the heading, a line for each byte, and an empty line for every
    started group of 16 bytes; with an output path it prints nothing. *)
Theorem main_feature_get_outcomes (fuel : nat) (dev : device) (k : Z)
    (output_path : option string) (calls calls1 : list syscall)
    (desc : descriptor) (t : report_descriptor_tree) :
  report_desc os_HIDIOCGRDESCSIZE os_HIDIOCGRDESC dev calls = (calls1, inr desc) ->
  parse fuel (to_bytes desc) = Some t ->
  Forall (fun pf => is_Some (deref (root t) pf)) (find_by_report_id t k) ->
  feature_report_size t k <> 0 ->
  let n := feature_report_size t k in
  let request := z2b k :: replicate (Z.to_nat n) x00 in
  let r := ioctl_HIDIOCGFEATURE (fd dev) request in
  let run := main_feature_get os_HIDIOCGRDESCSIZE os_HIDIOCGRDESC
               ioctl_HIDIOCGFEATURE fuel dev k output_path calls in
  let calls2 := (calls1 ++ [sys_HIDIOCGFEATURE (fd dev) request])%list in
  (ret r < 0 ->
     run = Returns (calls2,
                    inl (system_error (errno r) "Failed to get feature report")))
  /\ (0 <= ret r -> ret r <> n + 1 ->
     run = Returns (calls2,
                    inl (runtime_error "Incomplete feature report read")))
  /\ (ret r = n + 1 -> length (buffer r) = S (Z.to_nat n) ->
     exists text,
       run = Returns (calls2, inr text)
       /\ match output_path with
          | None =>
            count_nl text
            = (1 + Z.to_nat n + (Z.to_nat n + 15) / 16)%nat
          | Some _ => text = ""%string
          end).
Proof.
  intros Hdesc Hparse Hlive Hne. cbv zeta.
  destruct (main_feature_get_sized fuel dev k output_path _ _ _ _ Hdesc Hparse)
    as (Hfd & Hn & Hrun).
  rewrite (Hrun Hlive).
  destruct (Z.eqb_spec (feature_report_size t k) 0); [done|].
  unfold feature_get.
  destruct (Z.ltb_spec (fd dev) 0); [lia|].
  rewrite bool_decide_false by done.
  set (buf := z2b k :: replicate (Z.to_nat (feature_report_size t k)) x00).
  assert (Hbl : Z.of_nat (length buf) = feature_report_size t k + 1).
  { unfold buf. cbn [length]. rewrite length_replicate. lia. }
  rewrite Hbl.
  split_and!.
  - intros Hr. by destruct (Z.ltb_spec (ret (ioctl_HIDIOCGFEATURE (fd dev) buf)) 0); [|lia].
  - intros Hr Hr'.
    destruct (Z.ltb_spec (ret (ioctl_HIDIOCGFEATURE (fd dev) buf)) 0); [lia|].
    by destruct (Z.eqb_spec (ret (ioctl_HIDIOCGFEATURE (fd dev) buf))
                   (feature_report_size t k + 1)).
  - intros Hr Hlen.
    destruct (Z.ltb_spec (ret (ioctl_HIDIOCGFEATURE (fd dev) buf)) 0); [lia|].
    destruct (Z.eqb_spec (ret (ioctl_HIDIOCGFEATURE (fd dev) buf))
                (feature_report_size t k + 1)); [|done].
    simpl. destruct output_path as [path|]; [by eexists|].
    eexists. split; [done|].
    rewrite print_report_lines, Hlen.
    by replace (S (Z.to_nat (feature_report_size t k)) - 1)%nat
      with (Z.to_nat (feature_report_size t k)) by lia.
Qed.
End main_properties.


Lemma main_feature_get_outcomes_witness :
  exists text,
    main_feature_get (fun _ => IoctlIntResult 0 0 8)
      (fun _ _ => IoctlResult 0 0 feature_example)
      (fun _ b => IoctlResult 5 0 b) 0 (Device 3) 7 None []
    = Returns ([sys_HIDIOCGRDESCSIZE 3; sys_HIDIOCGRDESC 3 8;
                sys_HIDIOCGFEATURE 3
                  (z2b 7 :: replicate
                              (Z.to_nat (feature_report_size feature_example_tree 7))
                              x00)], inr text)
    /\ count_nl text
       = (1 + Z.to_nat (feature_report_size feature_example_tree 7)
          + (Z.to_nat (feature_report_size feature_example_tree 7) + 15) / 16)%nat.
Proof.
  apply (main_feature_get_outcomes (fun _ => IoctlIntResult 0 0 8)
           (fun _ _ => IoctlResult 0 0 feature_example)
           (fun _ b => IoctlResult 5 0 b) 0 (Device 3) 7 None []
           [sys_HIDIOCGRDESCSIZE 3; sys_HIDIOCGRDESC 3 8]
           (Descriptor (Some (ReportDescriptorBuf 8 feature_example)))
           feature_example_tree).
  - vm_compute. reflexivity.
  - vm_compute. reflexivity.
  - repeat constructor. eexists. vm_compute. reflexivity.
  - vm_compute. discriminate.
  - vm_compute. reflexivity.
  - vm_compute. reflexivity.
Defined.

(** ** The flag annotation *)

Lemma flags_text_check :
  forallb (fun k =>
    forallb (fun a =>
      forallb (fun b =>
        implb (String.eqb
                 (input_output_feature_flags_text (Z.of_nat a) k)
                 (input_output_feature_flags_text (Z.of_nat b) k))
              (a =? b)%nat)
        (seq 0 256))
      (seq 0 256))
    [input; output; feature] = true.
Proof. vm_compute. reflexivity. Qed.

(** X23: the flag annotation of an Input, Output or Feature item loses
    nothing: for one kind of item, two different flag bytes have
    different texts. *)
Theorem flags_text_injective (raw1 raw2 : Z) (kind : field_kind) :
  0 <= raw1 < 256 -> 0 <= raw2 < 256 ->
  raw1 <> raw2 ->
  input_output_feature_flags_text raw1 kind
  <> input_output_feature_flags_text raw2 kind.
Proof.
  intros H1 H2 Hne Heq.
  pose proof flags_text_check as H.
  rewrite forallb_forall in H.
  assert (Hk : In kind [input; output; feature]).
  { destruct kind; simpl; tauto. }
  specialize (H kind Hk). rewrite forallb_forall in H.
  specialize (H (Z.to_nat raw1) ltac:(apply in_seq; lia)).
  rewrite forallb_forall in H.
  specialize (H (Z.to_nat raw2) ltac:(apply in_seq; lia)).
  rewrite !Z2Nat.id in H by lia.
  rewrite Heq, String.eqb_refl in H. simpl in H.
  apply Nat.eqb_eq in H. lia.
Qed.

Lemma flags_text_injective_witness :
  input_output_feature_flags_text 2 input
  <> input_output_feature_flags_text 130 input.
Proof. apply (flags_text_injective 2 130 input); lia. Defined.
